(** * surfel_mapper node: time-stamp rounding, pose lookup, keyframe queue

    A shallow embedding of [surfel_mapper/src/surfel_mapper_node.cpp]:
    [roundTimeStamp], [getSensorPosition], [processCloudMsgQueue], the
    subscriber callbacks, [sendMapMessage], [resetMapCallback] and the
    parameter parsing of [main].  *)

From Stdlib Require Import ZArith QArith Qround Qabs Lia.
From stdpp Require Import base option list strings gmap.

(** ** Machine integers *)

(** [uint32_t] values are integers in [0, 2^32); arithmetic wraps. *)
Definition wrap32 (x : Z) : Z := (x mod 2 ^ 32)%Z.

Definition is_uint32 (x : Z) : Prop := (0 <= x < 2 ^ 32)%Z.

(** ** ros::Time and ros::Duration *)

Module RosTime.
Local Open Scope Z_scope.

(** [ros::Time]: two [uint32_t] fields. *)
Record Time := mkTime { sec : Z; nsec : Z }.

(** [ros::Duration]: [int32_t] seconds and a nanosecond part in [0, 10^9). *)
Record Duration := mkDuration { dsec : Z; dnsec : Z }.

(** The invariant of a [ros::Time] value: the nanosecond field is below one second. *)
Definition normalized (t : Time) : Prop :=
  is_uint32 (sec t) /\ 0 <= nsec t < 1000000000.

(** [TimeBase::toNSec]. *)
Definition toNSec (t : Time) : Z := sec t * 1000000000 + nsec t.


(** [TimeBase::operator<]. *)
Definition time_lt (a b : Time) : bool :=
  (sec a <? sec b) || ((sec a =? sec b) && (nsec a <? nsec b)).

(** [TimeBase::operator>]. *)
Definition time_gt (a b : Time) : bool :=
  (sec b <? sec a) || ((sec a =? sec b) && (nsec b <? nsec a)).

(** [TimeBase::operator<=]. *)
Definition time_le (a b : Time) : bool :=
  (sec a <? sec b) || ((sec a =? sec b) && (nsec a <=? nsec b)).

(** The conversion to [int32_t], and [int32_t] arithmetic: two's
    complement, wrapping. *)
Definition to_int32 (x : Z) : Z := (x + 2 ^ 31) mod 2 ^ 32 - 2 ^ 31.

(** [TimeBase::operator-] on two times (rostime of ROS hydro and indigo):
    [Duration((int32_t)sec - (int32_t)rhs.sec, (int32_t)nsec -
    (int32_t)rhs.nsec)], whose constructor carries the nanoseconds into
    [0, 10^9) ([normalizeSecNSecSigned]).  For stamps [2^31] seconds or
    more apart the difference of the seconds wraps. *)
Definition time_sub (a b : Time) : Duration :=
  let s := to_int32 (to_int32 (sec a) - to_int32 (sec b)) in
  let n := to_int32 (to_int32 (nsec a) - to_int32 (nsec b)) in
  {| dsec := s + n / 1000000000; dnsec := n mod 1000000000 |}.


(** [DurationBase::operator<]. *)
Definition duration_lt (a b : Duration) : bool :=
  (dsec a <? dsec b) || ((dsec a =? dsec b) && (dnsec a <? dnsec b)).

(** [roundTimeStamp] (surfel_mapper_node.cpp, lines 77-90). *)
Definition roundTimeStamp (time_stamp : Time) : Time :=
  let time_stamp_nsec_mod := wrap32 (nsec time_stamp mod 1000000) in
  let nsec1 := wrap32 (nsec time_stamp - time_stamp_nsec_mod) in
  if 500000 <? time_stamp_nsec_mod then
    let nsec2 := wrap32 (nsec1 + 1000000) in
    if nsec2 =? 1000000000 then
      {| sec := wrap32 (sec time_stamp + 1); nsec := 0 |}
    else {| sec := sec time_stamp; nsec := nsec2 |}
  else {| sec := sec time_stamp; nsec := nsec1 |}.

(** What the specification says of the rounding: half a millisecond and
    more goes up, with carry into the seconds. *)
Definition round_half_up (t : Time) : Time :=
  let r := nsec t mod 1000000 in
  let n := if 500000 <=? r then nsec t - r + 1000000 else nsec t - r in
  if 1000000000 <=? n then {| sec := sec t + 1; nsec := 0 |}
  else {| sec := sec t; nsec := n |}.

(** A whole number of milliseconds. *)
Definition whole_ms (t : Time) : Prop := (nsec t mod 1000000 = 0)%Z.

End RosTime.

(** ** Floating-point values *)

(** IEEE numbers: a finite value is the rational it denotes, every
    non-finite value is [NonFinite].  Literals and the conversion to
    [float] are rounded to the format (round to nearest, ties to even);
    the rounding of products and quotients is not modelled. *)
Inductive fp := Finite (q : Q) | NonFinite.

Definition double := fp.
Definition float := fp.

(** The integer nearest to [n / d], ties to even. *)
Definition round_half_even (n : Z) (d : positive) : Z :=
  let f := (n / Zpos d)%Z in
  let r := (n mod Zpos d)%Z in
  match (2 * r ?= Zpos d)%Z with
  | Lt => f
  | Gt => (f + 1)%Z
  | Eq => if Z.even f then f else (f + 1)%Z
  end.

(** [n / d] times [2 ^ k], as a fraction. *)
Definition scaled (n : Z) (d : positive) (k : Z) : Z * positive :=
  if (0 <=? k)%Z then ((n * 2 ^ k)%Z, d)
  else (n, (d * Z.to_pos (2 ^ (- k)))%positive).

(** [m] times [2 ^ (- k)]. *)
Definition unscaled (m : Z) (k : Z) : Q :=
  if (0 <=? k)%Z then Qred (m # Z.to_pos (2 ^ k))
  else inject_Z (m * 2 ^ (- k)).

(** The binary exponent of [n / d > 0]: the [e] with
    [2 ^ e <= n / d < 2 ^ (e + 1)]. *)
Definition exponent_of (n : Z) (d : positive) : Z :=
  let e := (Z.log2 n - Z.log2 (Zpos d))%Z in
  if (n * 2 ^ (Z.max 0 (- e)) <? Zpos d * 2 ^ (Z.max 0 e))%Z
  then (e - 1)%Z else e.

Definition round_positive (prec emin : Z) (n : Z) (d : positive) : Q :=
  let e := Z.max (exponent_of n d) emin in
  let k := (prec - 1 - e)%Z in
  let '(n', d') := scaled n d k in
  unscaled (round_half_even n' d') k.

(** The value of the binary format with [prec] bits of mantissa and least
    exponent [emin] that is nearest to [q], ties to even. *)
Definition round_binary (prec emin : Z) (q : Q) : Q :=
  match Qnum q with
  | Z0 => 0%Q
  | Zpos _ => round_positive prec emin (Qnum q) (Qden q)
  | Zneg _ => Qopp (round_positive prec emin (- Qnum q) (Qden q))
  end.

(** Rounding to a format whose greatest finite value is
    [(2 ^ prec - 1) * 2 ^ (emax - prec + 1)]; beyond it the result is not
    finite. *)
Definition round_fp (prec emin emax : Z) (q : Q) : fp :=
  let r := round_binary prec emin q in
  if Qle_bool (Qabs r) (inject_Z ((2 ^ prec - 1) * 2 ^ (emax - prec + 1)))
  then Finite r else NonFinite.

(** A literal of type [double], such as [0.8]. *)
Definition double_literal (q : Q) : double := round_fp 53 (-1022) 1023 q.

(** A literal of type [float], such as [0.005f]. *)
Definition float_literal (q : Q) : float := round_fp 24 (-126) 127 q.

(** The conversion of a [double] to [float]. *)
Definition to_float (d : double) : float :=
  match d with
  | Finite q => round_fp 24 (-126) 127 q
  | NonFinite => NonFinite
  end.

Definition fp_isfinite (x : fp) : bool :=
  match x with Finite _ => true | NonFinite => false end.

Definition fp_mul (x y : fp) : fp :=
  match x, y with
  | Finite a, Finite b => Finite (a * b)
  | _, _ => NonFinite
  end.

Definition fp_div (x y : fp) : fp :=
  match x, y with
  | Finite a, Finite b => if Qeq_bool b 0 then NonFinite else Finite (a / b)
  | _, _ => NonFinite
  end.

Definition fp_of_Z (z : Z) : fp := Finite (inject_Z z).

(** ** Outcomes of the modelled C++ *)

(** A run either returns, or reads a vector out of bounds through
    [operator[]], or has [std::out_of_range] thrown by [at], or (in the
    model only) exhausts the fuel given to a [while] loop. *)
Inductive result (A : Type) : Type :=
  | Ok (a : A)
  | OutOfBounds
  | OutOfRange
  | OutOfFuel.
Arguments Ok {A} a.
Arguments OutOfBounds {A}.
Arguments OutOfRange {A}.
Arguments OutOfFuel {A}.

#[global] Instance result_ret : MRet result := fun A a => Ok a.
#[global] Instance result_bind : MBind result := fun A B f m =>
  match m with
  | Ok a => f a
  | OutOfBounds => OutOfBounds
  | OutOfRange => OutOfRange
  | OutOfFuel => OutOfFuel
  end.

(** [v[k]] on a [std::vector]. *)
Definition subscript {A} (v : list A) (k : nat) : result A :=
  match v !! k with
  | Some a => Ok a
  | None => OutOfBounds
  end.

(** ** Messages *)

Module Msgs.
Import RosTime.

(** [geometry_msgs::Point], [geometry_msgs::Quaternion], [geometry_msgs::Pose]. *)
Record Point := { px : double; py : double; pz : double }.
Record Quaternion := { qx : double; qy : double; qz : double; qw : double }.
Record Pose := { position : Point; orientation : Quaternion }.

(** [geometry_msgs::PoseStamped], with the stamp of its header. *)
Record PoseStamped := { stamp : Time; pose : Pose }.

(** [nav_msgs::Path]. *)
Record Path := { poses : list PoseStamped }.

(** [sensor_msgs::PointCloud2]: the stamp of the header and the payload. *)
Record PointCloud2 := { cloud_stamp : Time; cloud_data : list Z }.

(** [sensor_msgs::CameraInfo]: the 3x3 intrinsic matrix [K], row-major. *)
Record CameraInfo := { K : nat -> double }.

(** [SensorPose] (surfel_mapper_node.cpp, lines 51-55): an
    [Eigen::Quaternionf] given as (w, x, y, z) and an [Eigen::Vector4f]. *)
Record SensorPose := {
  sp_orientation : float * float * float * float;
  sp_origin : float * float * float * float
}.

(** A [pcl::PointCloud<pcl::PointXYZRGB>] converted from a message, with
    its sensor pose fixed. *)
Record PointCloud := {
  pc_msg : PointCloud2;
  sensor_origin_ : float * float * float * float;
  sensor_orientation_ : float * float * float * float
}.

End Msgs.

(** ** The surfel mapper (libmapper) *)

Module Mapper.
Import Msgs.

(** [CameraParams]: the pinhole intrinsics handed to the mapper. *)
Record CameraParams := {
  alpha : double; beta : double; cx : double; cy : double
}.

(** The node parameters (surfel_mapper_node.cpp, lines 35-46). *)
Record NodeParams := {
  dmax : double;
  min_kinect_dist : double;
  max_kinect_dist : double;
  octree_resolution : double;
  preview_resolution : double;
  preview_color_samples_in_voxel : Z;
  confidence_threshold : Z;
  min_scan_znormal : double;
  use_frustum : bool;
  scene_size : Z;
  logging : bool;
  use_update : bool
}.

(** [PointCustomSurfel]: position, normal, 8-bit colour, radius and
    confidence of one surfel. *)
Record PointCustomSurfel := {
  x : float; y : float; z : float;
  normal_x : float; normal_y : float; normal_z : float;
  r : Z; g : Z; b : Z;
  radius : float;
  confidence : Z
}.

(** [pcl::isFinite]: the three coordinates are finite. *)
Definition isFinite (p : PointCustomSurfel) : bool :=
  fp_isfinite (x p) && fp_isfinite (y p) && fp_isfinite (z p).

(** Modelled from the spec: the record that marks a slot of the store
    invalid, by "a sentinel non-finite position" (libmapper is missing). *)
Definition invalid_surfel : PointCustomSurfel :=
  {| x := NonFinite; y := NonFinite; z := NonFinite;
     normal_x := NonFinite; normal_y := NonFinite; normal_z := NonFinite;
     r := 0; g := 0; b := 0; radius := NonFinite; confidence := 0 |}.

(** Modelled from the spec: the state of a [SurfelMapper], whose class is
    missing (libmapper): the options and intrinsics it was built with, the
    surfel store ("pre-allocated contiguous array of [scene_size] surfel
    records" with "a monotonically advancing cursor"), and the spatial
    index, which "maps 3D positions at leaf resolution to sets of surfel
    indices", each leaf keeping its bucket in insertion order. *)
Record SurfelMapper := {
  mp_params : NodeParams;
  mp_camera : CameraParams;
  cloudScene : list PointCustomSurfel;
  cursor : nat;
  octree : gmap (Z * Z * Z) (list Z)
}.

(** Modelled from the spec: the constructor of [SurfelMapper], missing
    (libmapper): the store is "pre-allocated at startup to [scene_size]
    records", all invalid, and the index is empty. *)
Definition new_SurfelMapper (p : NodeParams) (c : CameraParams) : SurfelMapper :=
  {| mp_params := p; mp_camera := c;
     cloudScene := replicate (Z.to_nat (scene_size p)) invalid_surfel;
     cursor := 0; octree := ∅ |}.

(** Modelled from the spec: [SurfelMapper::resetMap], missing (libmapper):
    it "invalidates all surfels, clears the spatial index, returns the
    store to empty". *)
Definition resetMap (m : SurfelMapper) : SurfelMapper :=
  {| mp_params := mp_params m; mp_camera := mp_camera m;
     cloudScene := replicate (length (cloudScene m)) invalid_surfel;
     cursor := 0; octree := ∅ |}.

(** Modelled from the spec: [SurfelMapper::getAllIndices], missing
    (libmapper): "every currently valid index", which is "derived from the
    set of indices currently referenced by the spatial index". *)
Definition getAllIndices (m : SurfelMapper) : list Z :=
  map_to_list (octree m) ≫= snd.

(** [SurfelMapper::getCloudScene]. *)
Definition getCloudScene (m : SurfelMapper) : list PointCustomSurfel :=
  cloudScene m.

(** The operations the node calls whose code is floating-point geometry
    outside this model: the fusion of a posed cloud into the map
    ([SurfelMapper::addPointCloudToScene]), the bounding-box query
    ([SurfelMapper::getBoundingBoxIndices]) and Eigen's
    [Quaternionf::setFromTwoVectors].  Every statement below holds for
    each implementation of them. *)
Class Geometry := {
  addPointCloudToScene : SurfelMapper -> PointCloud -> SurfelMapper;
  getBoundingBoxIndices :
    SurfelMapper -> float * float * float -> float * float * float -> list Z;
  setFromTwoVectors :
    float * float * float -> float * float * float ->
    float * float * float * float
}.

End Mapper.

(** ** The node *)

Module Node.
Import RosTime Msgs Mapper.

(** The sensor pose read off a path entry (lines 139-141). *)
Definition sensor_pose_of (pose_stamped : PoseStamped) : SensorPose :=
  let p := position (pose pose_stamped) in
  let o := orientation (pose pose_stamped) in
  {| sp_origin :=
       (to_float (px p), to_float (py p), to_float (pz p), Finite 1);
     sp_orientation :=
       (to_float (qw o), to_float (qx o), to_float (qy o), to_float (qz o)) |}.

(** The rounded stamp of a path entry. *)
Definition rstamp (p : PoseStamped) : Time := roundTimeStamp (stamp p).

(** The guard of the bisection loop (line 117). *)
Definition bisect_guard (ij : nat * nat) : bool := ij.1 + 1 <? ij.2.

(** One iteration of the bisection loop (lines 118-122).  The indices are
    [size_t]; [i + j] stays below twice the size of the vector, so it does
    not wrap and the indices are natural numbers here. *)
Definition bisect_step (ps : list PoseStamped) (time_stamp_rounded : Time)
    (ij : nat * nat) : result (nat * nat) :=
  let k := (ij.1 + ij.2) / 2 in
  p ← subscript ps k;
  if time_le (rstamp p) time_stamp_rounded then Ok (k, ij.2) else Ok (ij.1, k).

(** The bisection loop (lines 117-123); [fuel] bounds its iterations. *)
Fixpoint bisect (fuel : nat) (ps : list PoseStamped) (time_stamp_rounded : Time)
    (ij : nat * nat) : result (nat * nat) :=
  if bisect_guard ij then
    match fuel with
    | O => OutOfFuel
    | S fuel' =>
        ij' ← bisect_step ps time_stamp_rounded ij;
        bisect fuel' ps time_stamp_rounded ij'
    end
  else Ok ij.

(** The values [(i, j)] with which control reaches the head of the
    bisection loop: those of line 116, and those an iteration leads to. *)
Inductive loop_state (ps : list PoseStamped) (time_stamp_rounded : Time)
    : nat * nat -> Prop :=
  | loop_enter : loop_state ps time_stamp_rounded (0, length ps - 1)
  | loop_iterate ij ij' :
      loop_state ps time_stamp_rounded ij ->
      bisect_guard ij = true ->
      bisect_step ps time_stamp_rounded ij = Ok ij' ->
      loop_state ps time_stamp_rounded ij'.

(** The nearest-neighbour choice between [i] and [j] (lines 126-131). *)
Definition nearest_of (ps : list PoseStamped) (time_stamp : Time)
    (ij : nat * nat) : result nat :=
  pi ← subscript ps ij.1;
  pj ← subscript ps ij.2;
  let duri := time_sub (roundTimeStamp time_stamp) (rstamp pi) in
  let durj := time_sub (rstamp pj) (roundTimeStamp time_stamp) in
  Ok (if duration_lt duri durj then ij.1 else ij.2).

(** Whether a rounded stamp lies outside the rounded range of a path with
    the given first and last poses (the test of line 108). *)
Definition outside (front back : PoseStamped) (time_stamp_rounded : Time) : bool :=
  time_gt (rstamp front) time_stamp_rounded
  || time_lt (rstamp back) time_stamp_rounded.

(** The nanosecond fields of all stamps of a path are below one second. *)
Definition subsecond_stamps (ps : list PoseStamped) : Prop :=
  Forall (fun p => 0 <= nsec (stamp p) < 1000000000)%Z ps.

(** The poses of a path are in nondecreasing order of rounded stamp. *)
Fixpoint nondecreasing (ps : list PoseStamped) : bool :=
  match ps with
  | p :: rest =>
      match rest with
      | q :: _ => time_le (rstamp p) (rstamp q) && nondecreasing rest
      | [] => true
      end
  | [] => true
  end.

(** A rounded stamp lies within the rounded range, first to last, of the
    poses of a path. *)
Definition within_range (ps : list PoseStamped) (time_stamp_rounded : Time) : bool :=
  match head ps, last ps with
  | Some front, Some back =>
      time_le (rstamp front) time_stamp_rounded
      && time_le time_stamp_rounded (rstamp back)
  | _, _ => false
  end.



(** [getSensorPosition] (lines 99-146): [Ok None] is the return of [false],
    [Ok (Some p)] the return of [true] with [p] stored in the output. *)
Definition getSensorPosition (current_path : option Path) (time_stamp : Time)
    : result (option SensorPose) :=
  let time_stamp_rounded := roundTimeStamp time_stamp in
  match current_path with
  | None => Ok None
  | Some path =>
      let ps := poses path in
      if bool_decide (ps = []) then Ok None
      else
        front ← subscript ps 0;
        back ← subscript ps (length ps - 1);
        if outside front back time_stamp_rounded then Ok None
        else
          ij ← bisect (length ps) ps time_stamp_rounded (0, length ps - 1);
          k ← nearest_of ps time_stamp ij;
          pose_stamped ← subscript ps k;
          Ok (Some (sensor_pose_of pose_stamped))
  end.

(** The global state of the node (lines 60-64, with the parameters of
    lines 35-46), and, as a ghost field, the clouds handed so far to
    [addPointCloudToScene], oldest first. *)
Record State := {
  params : NodeParams;
  current_path : option Path;
  cloudMsgQueue : list PointCloud2;
  mapper : option SurfelMapper;
  ingested : list PointCloud
}.

(** The conversion of a message to a point cloud with its sensor pose
    fixed (lines 161-168). *)
Definition posed_cloud (msg : PointCloud2) (sensor_pose : SensorPose) : PointCloud :=
  {| pc_msg := msg;
     sensor_origin_ := sp_origin sensor_pose;
     sensor_orientation_ := sp_orientation sensor_pose |}.

Section WithGeometry.
Context `{Geometry}.

(** The loop of [processCloudMsgQueue] (lines 155-181), on the queue, the
    mapper and the ghost record of the clouds ingested. *)
Fixpoint drain (path : option Path) (queue : list PointCloud2)
    (m : SurfelMapper) (done_ : list PointCloud)
    : result (list PointCloud2 * SurfelMapper * list PointCloud) :=
  match queue with
  | [] => Ok ([], m, done_)
  | msg :: rest =>
      res ← getSensorPosition path (cloud_stamp msg);
      match res with
      | Some sensor_pose =>
          let cloud := posed_cloud msg sensor_pose in
          drain path rest (addPointCloudToScene m cloud) (done_ ++ [cloud])
      | None => Ok (queue, m, done_)
      end
  end.

(** [processCloudMsgQueue] (lines 151-184). *)
Definition processCloudMsgQueue (s : State) : result State :=
  match mapper s with
  | Some m =>
      '(q, m', done_) ← drain (current_path s) (cloudMsgQueue s) m (ingested s);
      Ok {| params := params s; current_path := current_path s;
            cloudMsgQueue := q; mapper := Some m'; ingested := done_ |}
  | None => Ok s
  end.

(** [pathCallback] (lines 191-195). *)
Definition pathCallback (msg : Path) (s : State) : State :=
  {| params := params s; current_path := Some msg;
     cloudMsgQueue := cloudMsgQueue s; mapper := mapper s;
     ingested := ingested s |}.

(** [keyframeCallback] (lines 202-208). *)
Definition keyframeCallback (msg : PointCloud2) (s : State) : result State :=
  processCloudMsgQueue
    {| params := params s; current_path := current_path s;
       cloudMsgQueue := cloudMsgQueue s ++ [msg]; mapper := mapper s;
       ingested := ingested s |}.

(** The intrinsics read from a camera-info message (lines 221-225). *)
Definition camera_params_of (msg : CameraInfo) : CameraParams :=
  {| alpha := K msg 0; beta := K msg 4; cx := K msg 2; cy := K msg 5 |}.

(** [cameraInfoCallback] (lines 215-235). *)
Definition cameraInfoCallback (msg : CameraInfo) (s : State) : result State :=
  match mapper s with
  | None =>
      let camera_params := camera_params_of msg in
      processCloudMsgQueue
        {| params := params s; current_path := current_path s;
           cloudMsgQueue := cloudMsgQueue s;
           mapper := Some (new_SurfelMapper (params s) camera_params);
           ingested := ingested s |}
  | Some _ => Ok s
  end.

(** [resetMapCallback] (lines 406-418): the new state and the value returned. *)
Definition resetMapCallback (s : State) : State * bool :=
  match mapper s with
  | Some m =>
      ({| params := params s; current_path := current_path s;
          cloudMsgQueue := cloudMsgQueue s; mapper := Some (resetMap m);
          ingested := ingested s |}, true)
  | None => (s, true)
  end.

End WithGeometry.
End Node.

(** ** Marker publishing *)

Module Markers.
Import Mapper.

(** [visualization_msgs::Marker]: the fields [sendMapMessage] sets per surfel. *)
Record Marker := {
  id : Z;
  position : double * double * double;
  orientation : double * double * double * double;
  scale : double * double * double;
  color : float * float * float * float
}.

(** [MAX_MARKERS] (line 258). *)
Definition MAX_MARKERS : Z := 100000.

(** [cloudScene->at(n)] with an [int] index: [std::out_of_range] is thrown
    outside the cloud. *)
Definition at_ (cloud : list PointCustomSurfel) (n : Z) : result PointCustomSurfel :=
  if (n <? 0)%Z then OutOfRange
  else match cloud !! Z.to_nat n with
       | Some p => Ok p
       | None => OutOfRange
       end.

Section WithGeometry.
Context `{Geometry}.

(** The marker of the surfel met at position [i] (lines 297-320); the
    quaternion of [setFromTwoVectors] is (w, x, y, z), the marker stores
    (x, y, z, w). *)
Definition marker_of (i : nat) (point : PointCustomSurfel) : Marker :=
  let zaxis : float * float * float := (Finite 0, Finite 0, Finite 1) in
  let normal := (normal_x point, normal_y point, normal_z point) in
  let '(ow, ox, oy, oz) := setFromTwoVectors zaxis normal in
  {| id := Z.of_nat i;
     position := (x point, y point, z point);
     orientation := (ox, oy, oz, ow);
     scale := (fp_mul (radius point) (Finite 2),
               fp_mul (radius point) (Finite 2),
               Finite 0.0001);
     color := (fp_div (fp_of_Z (r point)) (Finite 255),
               fp_div (fp_of_Z (g point)) (Finite 255),
               fp_div (fp_of_Z (b point)) (Finite 255),
               Finite 1) |}.

(** The [for] loop of [sendMapMessage] (lines 294-323): [count] iterations
    are left, [i] is the loop variable. *)
Fixpoint marker_loop (cloud : list PointCustomSurfel) (point_indices : list Z)
    (count i : nat) (markers : list Marker) : result (list Marker) :=
  match count with
  | O => Ok markers
  | S count' =>
      n ← subscript point_indices i;
      point ← at_ cloud n;
      marker_loop cloud point_indices count' (S i)
        (if isFinite point && (i mod 2 =? 0)
         then markers ++ [marker_of i point] else markers)
  end.

(** The marker an iteration adds for position [i], if it adds one
    (lines 295-296 and 321). *)
Definition emitted (cloud : list PointCustomSurfel) (point_indices : list Z)
    (i : nat) : option Marker :=
  match point_indices !! i with
  | Some n =>
      match at_ cloud n with
      | Ok point =>
          if isFinite point && (i mod 2 =? 0) then Some (marker_of i point)
          else None
      | _ => None
      end
  | None => None
  end.

(** [nmarkers] (line 293): the size goes through [unsigned int]. *)
Definition nmarkers (point_indices : list Z) : nat :=
  Z.to_nat (Z.min (wrap32 (Z.of_nat (length point_indices))) MAX_MARKERS).

(** The marker array built from a scene and the indices of a bounding-box
    query (lines 293-323). *)
Definition build_markers (cloud : list PointCustomSurfel) (point_indices : list Z)
    : result (list Marker) :=
  marker_loop cloud point_indices (nmarkers point_indices) 0 [].

(** [sendMapMessage] (lines 270-329): the marker array published. *)
Definition sendMapMessage (m : SurfelMapper)
    (min_bb max_bb : float * float * float) : result (list Marker) :=
  let cloudScene := getCloudScene m in
  let point_indices := getBoundingBoxIndices m min_bb max_bb in
  build_markers cloudScene point_indices.

End WithGeometry.

(** What the specification says is published: "every other valid
    candidate", that is every second of the candidates with a finite
    record, here counted from the first one. *)
Fixpoint every_other {A} (l : list A) : list A :=
  match l with
  | [] => []
  | a :: rest =>
      a :: match rest with
           | [] => []
           | _ :: rest' => every_other rest'
           end
  end.

(** The candidates considered, each with its position in the result list. *)
Definition candidates (cloud : list PointCustomSurfel) (point_indices : list Z)
    : list (nat * PointCustomSurfel) :=
  omap (fun '(i, n) => match at_ cloud n with Ok p => Some (i, p) | _ => None end)
       (imap (fun i n => (i, n)) (take (Z.to_nat MAX_MARKERS) point_indices)).

Definition valid_candidates (cloud : list PointCustomSurfel)
    (point_indices : list Z) : list (nat * PointCustomSurfel) :=
  filter (fun ip => isFinite ip.2 = true) (candidates cloud point_indices).

End Markers.

(** ** Parameters *)

Module Params.
Import Mapper.
Local Open Scope string_scope.

(** A value of the parameter server ([XmlRpc::XmlRpcValue]);
    [TypeStruct] stands for a namespace, that is a name under which the
    server holds further names and no value of its own. *)
Inductive XmlRpcValue :=
  | TypeBoolean (b : bool)
  | TypeInt (i : Z)
  | TypeDouble (d : double)
  | TypeString (s : string)
  | TypeStruct.

(** [NodeHandle::getParam(key, double&)]: [None] is the return of [false],
    which leaves the variable alone; an integer is widened. *)
Definition getParam_double (srv : gmap string XmlRpcValue) (key : string)
    : option double :=
  match srv !! key with
  | Some (TypeDouble d) => Some d
  | Some (TypeInt i) => Some (fp_of_Z i)
  | _ => None
  end.

(** [NodeHandle::getParam(key, int&)]: a double is rounded to an integer. *)
Definition getParam_int (srv : gmap string XmlRpcValue) (key : string)
    : option Z :=
  match srv !! key with
  | Some (TypeInt i) => Some i
  | Some (TypeDouble (Finite d)) =>
      let f := Qfloor d in
      let frac := Qminus d (inject_Z (if Qle_bool 0 d then f else Qceiling d)) in
      Some (if Qle_bool (1 # 2) frac then Qceiling d else f)
  | _ => None
  end.

(** [NodeHandle::getParam(key, bool&)]. *)
Definition getParam_bool (srv : gmap string XmlRpcValue) (key : string)
    : option bool :=
  match srv !! key with
  | Some (TypeBoolean b) => Some b
  | _ => None
  end.

(** The parameter parsing of [main] (lines 484-495).  [np] gives, for a
    name in the private namespace of the node, what the server holds under
    it.  The defaults are the literals of the source: those of [dmax] and
    [min_scan_znormal] are [float] literals ([0.005f], [0.2f]), widened to
    [double] without change; [3e7] is a [double] converted to [int]. *)
Definition parse_params (np : gmap string XmlRpcValue) : NodeParams :=
  {| dmax := default (float_literal 0.005) (getParam_double np "dmax");
     min_kinect_dist :=
       default (double_literal 0.8) (getParam_double np "min_kinect_dist");
     max_kinect_dist :=
       default (double_literal 4.0) (getParam_double np "max_kinect_dist");
     octree_resolution :=
       default (double_literal 0.2) (getParam_double np "octree_resolution");
     preview_resolution :=
       default (double_literal 0.2) (getParam_double np "preview_resolution");
     preview_color_samples_in_voxel :=
       default 3%Z (getParam_int np "preview_color_samples_in_voxel");
     confidence_threshold := default 5%Z (getParam_int np "confidence_threshold");
     min_scan_znormal :=
       default (float_literal 0.2) (getParam_double np "min_scan_znormal");
     use_frustum := default true (getParam_bool np "use_frustum");
     scene_size := default 30000000%Z (getParam_int np "scene_size");
     logging := default true (getParam_bool np "logging");
     use_update := default true (getParam_bool np "use_update") |}.

End Params.

(** ** Runs of the node *)

Module Run.
Import RosTime Msgs Mapper Node.

(** What the node reacts to: a message on one of its three topics, a
    reset-map service call, or a pass of the main loop (lines 545-547),
    which calls [processCloudMsgQueue]. *)
Inductive Event :=
  | PathMsg (msg : Path)
  | KeyframeMsg (msg : PointCloud2)
  | CameraInfoMsg (msg : CameraInfo)
  | ResetMapRequest
  | MainLoopPass.

(** The state when [main] has parsed the parameters. *)
Definition initial (p : NodeParams) : State :=
  {| params := p; current_path := None; cloudMsgQueue := [];
     mapper := None; ingested := [] |}.

(** The keyframe messages of a run, in arrival order. *)
Definition keyframes (evs : list Event) : list PointCloud2 :=
  omap (fun e => match e with KeyframeMsg msg => Some msg | _ => None end) evs.

(** Whether an event is a camera-info message. *)
Definition is_camera_info (e : Event) : bool :=
  match e with CameraInfoMsg _ => true | _ => false end.

Section WithGeometry.
Context `{Geometry}.

Definition handle (e : Event) (s : State) : result State :=
  match e with
  | PathMsg msg => Ok (pathCallback msg s)
  | KeyframeMsg msg => keyframeCallback msg s
  | CameraInfoMsg msg => cameraInfoCallback msg s
  | ResetMapRequest => Ok (resetMapCallback s).1
  | MainLoopPass => processCloudMsgQueue s
  end.

Fixpoint run (evs : list Event) (s : State) : result State :=
  match evs with
  | [] => Ok s
  | e :: evs' => s' ← handle e s; run evs' s'
  end.

End WithGeometry.
End Run.

(** ** What is done to the map *)

Module Fusion.
Import Msgs Mapper Node.

(** An operation on the map: a posed cloud is fused into it
    ([addPointCloudToScene]), or it is reset ([resetMap]). *)
Inductive MapOp :=
  | Fuse (cloud : PointCloud)
  | Reset.

(** The clouds fused by a sequence of operations, in order. *)
Definition fused (ops : list MapOp) : list PointCloud :=
  omap (fun op => match op with Fuse cloud => Some cloud | Reset => None end) ops.

Section WithGeometry.
Context `{Geometry}.

Definition apply_op (m : SurfelMapper) (op : MapOp) : SurfelMapper :=
  match op with
  | Fuse cloud => addPointCloudToScene m cloud
  | Reset => resetMap m
  end.

Definition apply_ops (m : SurfelMapper) (ops : list MapOp) : SurfelMapper :=
  foldl apply_op m ops.

(** The map of the node is what a new map becomes when the clouds
    recorded as ingested are fused into it one after the other, in the
    order of the record, with resets in between; without a mapper nothing
    is recorded. *)
Definition fused_in_order (s : State) : Prop :=
  match mapper s with
  | None => ingested s = []
  | Some m =>
      exists (camera_params : CameraParams) (ops : list MapOp),
        m = apply_ops (new_SurfelMapper (params s) camera_params) ops /\
        fused ops = ingested s
  end.

End WithGeometry.
End Fusion.

(** ** Further notions on stamps and paths *)

Module Stamps.
Import RosTime Msgs.
Local Open Scope Z_scope.

(** The seconds of a stamp do not wrap when it is rounded. *)
Definition no_wrap (t : Time) : Prop :=
  nsec t <= 999500000 \/ sec t < 2 ^ 32 - 1.

(** The poses of a path are in nondecreasing order of stamp, as received. *)
Fixpoint chronological (ps : list PoseStamped) : bool :=
  match ps with
  | p :: rest =>
      match rest with
      | q :: _ => time_le (stamp p) (stamp q) && chronological rest
      | [] => true
      end
  | [] => true
  end.

(** A path entry with its stamp rounded. *)
Definition round_entry (p : PoseStamped) : PoseStamped :=
  {| stamp := roundTimeStamp (stamp p); pose := pose p |}.

End Stamps.

(** ** The publish-map service *)

Module Services.
Import Msgs Mapper Node Markers.

(** The request of the [PublishMap] service: the corners of a box. *)
Record PublishMapRequest := {
  x1 : double; y1 : double; z1 : double;
  x2 : double; y2 : double; z2 : double
}.

Section WithGeometry.
Context `{Geometry}.

(** [publishMapCallback] (lines 430-444): the marker array published, if
    one is, and the value returned. *)
Definition publishMapCallback (request : PublishMapRequest) (s : State)
    : result (option (list Marker) * bool) :=
  let minbb := (to_float (x1 request), to_float (y1 request), to_float (z1 request)) in
  let maxbb := (to_float (x2 request), to_float (y2 request), to_float (z2 request)) in
  match mapper s with
  | Some m =>
      marray ← sendMapMessage m minbb maxbb;
      Ok (Some marray, true)
  | None => Ok (None, true)
  end.

End WithGeometry.
End Services.

(** ** The paths received *)

Module History.
Import Msgs Run.

(** The path messages of a run, in arrival order. *)
Definition paths (evs : list Event) : list Path :=
  omap (fun e => match e with PathMsg msg => Some msg | _ => None end) evs.

End History.

(** ** Events that cannot free a waiting keyframe *)

Module Blocking.
Import RosTime Msgs Node Run.

(** The event brings no path in which the stamp of the keyframe is found:
    it is not a path message, or the lookup in its path fails. *)
Definition leaves_blocked (kf : PointCloud2) (e : Event) : Prop :=
  match e with
  | PathMsg path => getSensorPosition (Some path) (cloud_stamp kf) = Ok None
  | _ => True
  end.

End Blocking.

(** ** Sample data *)

Module Samples.
Import RosTime Msgs Mapper.

(** A path entry stamped [(s, ns)], at [x] on the first axis. *)
Definition entry (s ns : Z) (x : Q) : PoseStamped :=
  {| stamp := mkTime s ns;
     pose := {| position := {| px := Finite x; py := Finite 0; pz := Finite 0 |};
                orientation := {| qx := Finite 0; qy := Finite 0;
                                  qz := Finite 0; qw := Finite 1 |} |} |}.

Definition sample_path : Path :=
  {| poses := [entry 10 0 1; entry 10 100400000 2;
               entry 10 200600000 3; entry 11 0 4] |}.

Definition keyframe (s ns : Z) : PointCloud2 :=
  {| cloud_stamp := mkTime s ns; cloud_data := [] |}.

(** A fusion that leaves the map alone, a query that names three slots. *)
Definition sample_geometry : Geometry :=
  {| addPointCloudToScene := fun m _ => m;
     getBoundingBoxIndices := fun _ _ _ => [0; 1; 2]%Z;
     setFromTwoVectors := fun _ _ => (Finite 1, Finite 0, Finite 0, Finite 0) |}.

Definition finite_surfel (q : Q) : PointCustomSurfel :=
  {| x := Finite q; y := Finite 0; z := Finite 1;
     normal_x := Finite 0; normal_y := Finite 0; normal_z := Finite 1;
     r := 128; g := 64; b := 32; radius := Finite 0.01; confidence := 5 |}.

(** A map whose scene holds a valid, an invalid and a valid surfel. *)
Definition sample_mapper (p : NodeParams) (c : CameraParams) : SurfelMapper :=
  {| mp_params := p; mp_camera := c;
     cloudScene := [finite_surfel 1; invalid_surfel; finite_surfel 2];
     cursor := 3;
     octree := {[ (0, 0, 0)%Z := [0; 2]%Z ]} |}.

Definition sample_params : NodeParams :=
  {| dmax := Finite 0.005; min_kinect_dist := Finite 0.8;
     max_kinect_dist := Finite 4.0; octree_resolution := Finite 0.2;
     preview_resolution := Finite 0.2; preview_color_samples_in_voxel := 3;
     confidence_threshold := 5; min_scan_znormal := Finite 0.2;
     use_frustum := true; scene_size := 3; logging := true;
     use_update := true |}.

Definition sample_camera_info : CameraInfo :=
  {| K := fun i => Finite (inject_Z (Z.of_nat i) + 500) |}.

End Samples.

(** * Properties *)

(** ** Time stamps *)

Module RosTimeFacts.
Import RosTime.
Local Open Scope Z_scope.

Lemma wrap32_small x : 0 <= x < 2 ^ 32 -> wrap32 x = x.
Proof. intros Hx. unfold wrap32. now apply Z.mod_small. Qed.

Lemma wrap32_range x : is_uint32 (wrap32 x).
Proof. unfold is_uint32, wrap32. apply Z.mod_pos_bound. lia. Qed.

(** The three outcomes of the rounding of a time whose nanoseconds are
    below one second, by the remainder modulo one millisecond. *)
Lemma roundTimeStamp_cases t :
  0 <= nsec t < 1000000000 ->
  let r := nsec t mod 1000000 in
  (r <= 500000 /\ roundTimeStamp t = mkTime (sec t) (nsec t - r)) \/
  (500000 < r /\ nsec t < 999000000 /\
     roundTimeStamp t = mkTime (sec t) (nsec t - r + 1000000)) \/
  (500000 < r /\ 999500000 < nsec t /\
     roundTimeStamp t = mkTime (wrap32 (sec t + 1)) 0).
Proof.
  intros Hn r.
  assert (Hr : 0 <= r < 1000000) by (apply Z.mod_pos_bound; lia).
  assert (Hd : nsec t = 1000000 * (nsec t / 1000000) + r)
    by (apply Z.div_mod; lia).
  unfold roundTimeStamp. fold r.
  rewrite (wrap32_small r) by lia.
  rewrite (wrap32_small (nsec t - r)) by lia.
  destruct (Z.ltb_spec 500000 r) as [Hgt | Hle].
  - rewrite (wrap32_small (nsec t - r + 1000000)) by lia.
    destruct (Z.eqb_spec (nsec t - r + 1000000) 1000000000) as [He | Hne].
    + right. right. repeat split; [lia | lia].
    + right. left. repeat split; [lia | lia].
  - left. split; [lia | reflexivity].
Qed.

Lemma roundTimeStamp_nsec t :
  0 <= nsec t < 1000000000 ->
  nsec (roundTimeStamp t) mod 1000000 = 0 /\
  0 <= nsec (roundTimeStamp t) < 1000000000.
Proof.
  intros Hn.
  assert (Hr : 0 <= nsec t mod 1000000 < 1000000) by (apply Z.mod_pos_bound; lia).
  assert (Hd : nsec t = 1000000 * (nsec t / 1000000) + nsec t mod 1000000)
    by (apply Z.div_mod; lia).
  destruct (roundTimeStamp_cases t Hn) as [[_ ->] | [(_ & Hlt & ->) | (_ & _ & ->)]];
    cbn [nsec].
  - split; [| lia].
    replace (nsec t - nsec t mod 1000000) with (nsec t / 1000000 * 1000000) by lia.
    apply Z.mod_mul. lia.
  - split; [| lia].
    replace (nsec t - nsec t mod 1000000 + 1000000)
      with ((nsec t / 1000000 + 1) * 1000000) by lia.
    apply Z.mod_mul. lia.
  - split; [reflexivity | lia].
Qed.

Lemma roundTimeStamp_sec t : is_uint32 (sec t) -> is_uint32 (sec (roundTimeStamp t)).
Proof.
  intros Hs. unfold roundTimeStamp.
  repeat match goal with |- context [if ?c then _ else _] => destruct c end;
    cbn [sec]; auto using wrap32_range.
Qed.

Lemma roundTimeStamp_fixed t :
  0 <= nsec t < 1000000000 -> nsec t mod 1000000 = 0 -> roundTimeStamp t = t.
Proof.
  intros Hn Hm. unfold roundTimeStamp. rewrite Hm.
  change (wrap32 0) with 0. cbv zeta.
  change (500000 <? 0) with false. cbv iota.
  rewrite Z.sub_0_r, wrap32_small by lia. now destruct t.
Qed.

(** On times whose nanoseconds are below one second the comparisons of
    [ros::Time] are those of the nanosecond counts. *)
Lemma time_le_toNSec a b :
  0 <= nsec a < 1000000000 -> 0 <= nsec b < 1000000000 ->
  time_le a b = true <-> toNSec a <= toNSec b.
Proof.
  intros Ha Hb. unfold time_le, toNSec.
  rewrite orb_true_iff, andb_true_iff, Z.ltb_lt, Z.eqb_eq, Z.leb_le. lia.
Qed.







End RosTimeFacts.

Section TimeStampRounding.
Import RosTime RosTimeFacts.
Local Open Scope Z_scope.

(** C10: on every time stamp whose nanosecond field is below 10^9,
    rounding twice is rounding once, and the nanosecond field of the
    rounded stamp is a multiple of 1000000 and below 10^9. *)
Theorem roundTimeStamp_idempotent (t : Time) :
  0 <= nsec t < 1000000000 ->
  roundTimeStamp (roundTimeStamp t) = roundTimeStamp t /\
  nsec (roundTimeStamp t) mod 1000000 = 0 /\
  0 <= nsec (roundTimeStamp t) < 1000000000.
Proof.
  intros Hn. destruct (roundTimeStamp_nsec t Hn) as [Hm Hb].
  split; [| split]; [| exact Hm | exact Hb].
  now apply roundTimeStamp_fixed.
Qed.

Lemma roundTimeStamp_idempotent_witness :
  let t := mkTime 100 999501341 in
  roundTimeStamp t = mkTime 101 0 /\
  roundTimeStamp (roundTimeStamp t) = roundTimeStamp t /\
  nsec (roundTimeStamp t) mod 1000000 = 0 /\
  0 <= nsec (roundTimeStamp t) < 1000000000.
Proof.
  split; [reflexivity |].
  apply (roundTimeStamp_idempotent (mkTime 100 999501341)). cbn. lia.
Defined.

(** C2, as the code has it: on a time stamp with both fields in range and
    the nanoseconds below 10^9, a remainder of at most 500000 ns (so also
    one of exactly 500000 ns) is rounded down, a larger one is rounded up;
    rounding up from more than 999500000 ns sets the nanoseconds to 0 and
    adds 1 to the seconds, modulo 2^32; and unless the seconds wrap, the
    result is a whole-millisecond stamp nearest to the input. *)
Theorem roundTimeStamp_nearest_ms (t : Time) :
  normalized t ->
  let r := nsec t mod 1000000 in
  (r <= 500000 -> roundTimeStamp t = mkTime (sec t) (nsec t - r)) /\
  (500000 < r -> nsec t <= 999500000 ->
     roundTimeStamp t = mkTime (sec t) (nsec t - r + 1000000)) /\
  (999500000 < nsec t -> roundTimeStamp t = mkTime (wrap32 (sec t + 1)) 0) /\
  (nsec t <= 999500000 \/ sec t < 2 ^ 32 - 1 ->
     whole_ms (roundTimeStamp t) /\
     forall u : Time, whole_ms u ->
       Z.abs (toNSec (roundTimeStamp t) - toNSec t) <= Z.abs (toNSec u - toNSec t)).
Proof.
  intros [Hs Hn] r.
  assert (Hr : 0 <= r < 1000000) by (apply Z.mod_pos_bound; lia).
  assert (Hd : nsec t = 1000000 * (nsec t / 1000000) + r)
    by (apply Z.div_mod; lia).
  pose proof (roundTimeStamp_cases t Hn) as Hc. fold r in Hc.
  split; [| split; [| split]].
  - intros Hle. destruct Hc as [[_ E] | [(Hgt & _) | (Hgt & _)]]; [exact E | lia | lia].
  - intros Hgt Hlt.
    destruct Hc as [[Hle _] | [(_ & _ & E) | (_ & Hbig & _)]]; [lia | exact E | lia].
  - intros Hbig.
    destruct Hc as [[Hle _] | [(_ & Hlt & _) | (_ & _ & E)]]; [lia | lia | exact E].
  - intros Hno. split; [apply (roundTimeStamp_nsec t Hn) |].
    intros u Hu. unfold whole_ms in Hu.
    assert (Hdu : nsec u = 1000000 * (nsec u / 1000000) + nsec u mod 1000000)
      by (apply Z.div_mod; lia).
    rewrite Hu in Hdu.
    unfold toNSec.
    destruct Hc as [[Hle ->] | [(Hgt & Hlt & ->) | (Hgt & Hbig & ->)]]; cbn [sec nsec].
    + lia.
    + lia.
    + rewrite wrap32_small by (unfold is_uint32 in Hs; lia). lia.
Qed.

Lemma roundTimeStamp_nearest_ms_witness :
  let t := mkTime 100 999501341 in
  normalized t /\ roundTimeStamp t = mkTime (wrap32 (100 + 1)) 0.
Proof.
  split.
  - unfold normalized, is_uint32. cbn. lia.
  - apply (roundTimeStamp_nearest_ms (mkTime 100 999501341)).
    + unfold normalized, is_uint32. cbn. lia.
    + cbn. lia.
Defined.

(** C2 as claimed fails: a remainder of exactly 500000 ns is rounded down,
    not up, and from exactly 999500000 ns there is no carry into the
    seconds. *)
Lemma roundTimeStamp_half_rounds_down :
  normalized (mkTime 0 500000) /\
  nsec (mkTime 0 500000) mod 1000000 = 500000 /\
  roundTimeStamp (mkTime 0 500000) = mkTime 0 0 /\
  roundTimeStamp (mkTime 0 500000) <> round_half_up (mkTime 0 500000) /\
  roundTimeStamp (mkTime 7 999500000) = mkTime 7 999000000 /\
  roundTimeStamp (mkTime 7 999500000) <> mkTime 8 0.
Proof.
  unfold normalized, is_uint32. cbn.
  repeat split; try lia; discriminate.
Qed.

End TimeStampRounding.

(** ** The bisection of [getSensorPosition] *)

Module BisectFacts.
Import RosTime RosTimeFacts Msgs Node.

Lemma subscript_lt {A} (v : list A) k :
  k < length v -> exists a, v !! k = Some a /\ subscript v k = Ok a.
Proof.
  intros Hk. destruct (lookup_lt_is_Some_2 v k Hk) as [a Ha].
  exists a. split; [exact Ha |]. unfold subscript. now rewrite Ha.
Qed.

Lemma subscript_Ok {A} (v : list A) k a :
  subscript v k = Ok a -> v !! k = Some a.
Proof. unfold subscript. destruct (v !! k); congruence. Qed.

Lemma bisect_guard_true i j : bisect_guard (i, j) = true <-> i + 1 < j.
Proof. unfold bisect_guard. cbn [fst snd]. apply Nat.ltb_lt. Qed.

Lemma bisect_guard_false i j : bisect_guard (i, j) = false <-> j <= i + 1.
Proof. unfold bisect_guard. cbn [fst snd]. rewrite Nat.ltb_ge. lia. Qed.

Lemma midpoint_between i j : i + 1 < j -> i < (i + j) / 2 < j.
Proof.
  intros Hij. split.
  - apply Nat.div_le_lower_bound; lia.
  - apply Nat.Div0.div_lt_upper_bound; lia.
Qed.

(** An iteration entered with [j] inside the vector reads inside the
    vector, moves one of the two ends to the midpoint, and so keeps
    [i < j] inside the vector and narrows the interval. *)
Lemma bisect_step_spec ps tr i j :
  i + 1 < j -> j < length ps ->
  exists p, ps !! ((i + j) / 2) = Some p /\
    bisect_step ps tr (i, j)
    = Ok (if time_le (rstamp p) tr then ((i + j) / 2, j) else (i, (i + j) / 2)).
Proof.
  intros Hij Hj. pose proof (midpoint_between i j Hij) as Hk.
  destruct (subscript_lt ps ((i + j) / 2)) as (p & Hp & Hs); [lia |].
  exists p. split; [exact Hp |].
  unfold bisect_step. cbn [fst snd]. rewrite Hs. cbn.
  now destruct (time_le (rstamp p) tr).
Qed.

Lemma bisect_step_inv ps tr i j :
  i + 1 < j -> j < length ps ->
  exists i' j', bisect_step ps tr (i, j) = Ok (i', j') /\
    i <= i' /\ i' < j' /\ j' <= j /\ j' - i' < j - i.
Proof.
  intros Hij Hj. pose proof (midpoint_between i j Hij) as Hk.
  destruct (bisect_step_spec ps tr i j Hij Hj) as (p & _ & Hs).
  destruct (time_le (rstamp p) tr); eexists _, _; (split; [exact Hs | lia]).
Qed.

(** Every state at the head of the loop has [i <= j], and [j] inside a
    vector that is not empty. *)
Lemma loop_state_inv ps tr ij :
  ps <> [] -> loop_state ps tr ij -> ij.1 <= ij.2 /\ ij.2 < length ps.
Proof.
  intros Hne Hl. induction Hl as [| [i j] ij' _ IH Hg Hs].
  - cbn. destruct ps; [congruence | cbn; lia].
  - cbn in IH. apply bisect_guard_true in Hg.
    destruct (bisect_step_inv ps tr i j Hg) as (i' & j' & Hs' & Hb); [lia |].
    rewrite Hs' in Hs. injection Hs as <-. cbn. lia.
Qed.

(** With fuel for the width of the interval the loop returns, having
    stopped on a state it reached through its iterations. *)
Lemma bisect_returns ps tr fuel i j :
  j < length ps -> j - i <= fuel ->
  (forall P : nat * nat -> Prop,
     P (i, j) ->
     (forall a a', P a -> bisect_guard a = true -> bisect_step ps tr a = Ok a' -> P a') ->
     exists ij, bisect fuel ps tr (i, j) = Ok ij /\ P ij /\ bisect_guard ij = false).
Proof.
  revert i j. induction fuel as [| fuel IH]; intros i j Hj Hf P HP Hstep.
  - exists (i, j). assert (Hg : bisect_guard (i, j) = false)
      by (apply bisect_guard_false; lia).
    cbn [bisect]. rewrite Hg. auto.
  - cbn [bisect]. destruct (bisect_guard (i, j)) eqn:Hg.
    + apply bisect_guard_true in Hg.
      destruct (bisect_step_inv ps tr i j Hg Hj) as (i' & j' & Hs & Hb).
      rewrite Hs. cbn.
      apply IH; [lia | lia | | exact Hstep].
      apply (Hstep (i, j)); [exact HP | now apply bisect_guard_true | exact Hs].
    + exists (i, j). auto.
Qed.

(** The choice between the two ends reads inside the vector. *)
Lemma nearest_of_spec ps ts i j :
  i < length ps -> j < length ps ->
  exists pi pj, ps !! i = Some pi /\ ps !! j = Some pj /\
    nearest_of ps ts (i, j)
    = Ok (if duration_lt (time_sub (roundTimeStamp ts) (rstamp pi))
                         (time_sub (rstamp pj) (roundTimeStamp ts))
          then i else j).
Proof.
  intros Hi Hj.
  destruct (subscript_lt ps i Hi) as (pi & Hpi & Si).
  destruct (subscript_lt ps j Hj) as (pj & Hpj & Sj).
  exists pi, pj. repeat split; [exact Hpi | exact Hpj |].
  unfold nearest_of. cbn [fst snd]. rewrite Si. cbn. rewrite Sj. reflexivity.
Qed.

End BisectFacts.

(** ** [getSensorPosition] *)

Module LookupFacts.
Import RosTime RosTimeFacts Msgs Node BisectFacts.

(** The course of [getSensorPosition] on a path that has poses: outside
    the range it returns [false]; inside, the loop runs from [(0, size-1)]
    to a state on which its guard fails, one of the two ends is chosen,
    and the pose found there is returned.  [P] is any property the
    iterations preserve. *)
Lemma getSensorPosition_course (path : Path) (ts : Time) :
  let ps := poses path in
  let tr := roundTimeStamp ts in
  ps <> [] ->
  exists front back,
    ps !! 0 = Some front /\ ps !! (length ps - 1) = Some back /\
    if outside front back tr then getSensorPosition (Some path) ts = Ok None
    else
      forall P : nat * nat -> Prop,
        P (0, length ps - 1) ->
        (forall a a', loop_state ps tr a -> P a -> bisect_guard a = true ->
                      bisect_step ps tr a = Ok a' -> P a') ->
        exists ij pi pj p,
          P ij /\ loop_state ps tr ij /\ bisect_guard ij = false /\
          ps !! ij.1 = Some pi /\ ps !! ij.2 = Some pj /\
          ps !! (if duration_lt (time_sub tr (rstamp pi)) (time_sub (rstamp pj) tr)
                 then ij.1 else ij.2) = Some p /\
          getSensorPosition (Some path) ts = Ok (Some (sensor_pose_of p)).
Proof.
  intros ps tr Hne.
  assert (Hlen : 0 < length ps) by (destruct ps; [congruence | cbn; lia]).
  destruct (subscript_lt ps 0 Hlen) as (front & Hf & Sf).
  destruct (subscript_lt ps (length ps - 1)) as (back & Hb & Sb); [lia |].
  exists front, back. split; [exact Hf |]. split; [exact Hb |].
  unfold getSensorPosition. fold ps. fold tr.
  rewrite bool_decide_eq_false_2 by exact Hne.
  rewrite Sf. cbn [mbind result_bind]. rewrite Sb. cbn [mbind result_bind].
  destruct (outside front back tr); [reflexivity |].
  intros P HP Hpres.
  destruct (bisect_returns ps tr (length ps) 0 (length ps - 1)
              ltac:(lia) ltac:(lia)
              (fun a => loop_state ps tr a /\ P a))
    as ([i j] & Hbis & [Hl HPij] & Hg).
  { split; [constructor | exact HP]. }
  { intros a a' [Hl HPa] Hg Hs. split.
    - econstructor; eauto.
    - eapply Hpres; eauto. }
  pose proof (loop_state_inv ps tr (i, j) Hne Hl) as [Hij Hj]. cbn in Hij, Hj.
  destruct (nearest_of_spec ps ts i j) as (pi & pj & Hpi & Hpj & Hn); [lia | lia |].
  fold tr in Hn.
  set (k := if duration_lt (time_sub tr (rstamp pi)) (time_sub (rstamp pj) tr)
            then i else j) in *.
  assert (Hk : k < length ps) by (subst k; destruct (duration_lt _ _); lia).
  destruct (subscript_lt ps k Hk) as (p & Hp & Sp).
  exists (i, j), pi, pj, p. cbn [fst snd]. fold k.
  repeat split; try assumption.
  rewrite Hbis. cbn [mbind result_bind]. rewrite Hn. cbn [mbind result_bind].
  rewrite Sp. reflexivity.
Qed.

(** [getSensorPosition] returns, whatever the path and the stamp. *)
Lemma getSensorPosition_returns (current_path : option Path) (ts : Time) :
  exists res, getSensorPosition current_path ts = Ok res.
Proof.
  destruct current_path as [path |]; [| now exists None].
  destruct (decide (poses path = [])) as [He | Hne].
  - exists None. unfold getSensorPosition.
    now rewrite bool_decide_eq_true_2 by exact He.
  - destruct (getSensorPosition_course path ts Hne) as (front & back & _ & _ & Hc).
    destruct (outside front back (roundTimeStamp ts)).
    + eauto.
    + destruct (Hc (fun _ => True) I) as (ij & pi & pj & p & H); [auto |].
      destruct H as (_ & _ & _ & _ & _ & _ & ->). eauto.
Qed.

End LookupFacts.

Section PoseLookup.
Import RosTime RosTimeFacts Msgs Node BisectFacts LookupFacts.

(** With at least two poses every state at the head of the loop has
    [i < j]. *)
Lemma loop_state_lt ps tr ij :
  2 <= length ps -> loop_state ps tr ij -> ij.1 < ij.2.
Proof.
  intros Hlen Hl.
  assert (Hne : ps <> []) by (destruct ps; [cbn in Hlen; lia | congruence]).
  induction Hl as [| [i j] ij' Hl IH Hg Hs].
  - cbn. lia.
  - pose proof (loop_state_inv ps tr (i, j) Hne Hl) as [_ Hj]. cbn in Hj.
    apply bisect_guard_true in Hg.
    destruct (bisect_step_inv ps tr i j Hg Hj) as (i' & j' & Hs' & Hb).
    rewrite Hs' in Hs. injection Hs as <-. cbn. lia.
Qed.

(** C9, as the code has it: for a path with at least one pose and any
    stamp, [getSensorPosition] returns without reading outside the poses:
    the loop returns within the fuel of the model; every state at its head
    has [i <= j < size], and [i < j] when the path has two poses or more;
    every iteration is entered with [i < j < size], reads inside the
    vector, and leaves [i < j < size] with [j - i] strictly smaller; and
    the choice after the loop is [i] or [j], inside the vector. *)
Theorem getSensorPosition_terminates_in_bounds (path : Path) (ts : Time) :
  poses path <> [] ->
  let ps := poses path in
  let tr := roundTimeStamp ts in
  (exists res, getSensorPosition (Some path) ts = Ok res) /\
  (exists ij, bisect (length ps) ps tr (0, length ps - 1) = Ok ij) /\
  (forall i j, loop_state ps tr (i, j) ->
     i <= j < length ps /\ (2 <= length ps -> i < j)) /\
  (forall i j, loop_state ps tr (i, j) -> bisect_guard (i, j) = true ->
     i < j < length ps /\
     exists i' j', bisect_step ps tr (i, j) = Ok (i', j') /\
       i' < j' < length ps /\ j' - i' < j - i) /\
  (forall i j, loop_state ps tr (i, j) -> bisect_guard (i, j) = false ->
     exists k, nearest_of ps ts (i, j) = Ok k /\ (k = i \/ k = j) /\ k < length ps).
Proof.
  intros Hne ps tr.
  assert (Hlen : 0 < length ps)
    by (subst ps; destruct (poses path); [congruence | cbn; lia]).
  split; [apply getSensorPosition_returns |].
  split.
  { destruct (bisect_returns ps tr (length ps) 0 (length ps - 1)
                ltac:(lia) ltac:(lia) (fun _ => True) I) as (ij & Hb & _); eauto. }
  split.
  { intros i j Hl. split; [apply (loop_state_inv ps tr (i, j) Hne Hl) |].
    intros H2. apply (loop_state_lt ps tr (i, j) H2 Hl). }
  split.
  - intros i j Hl Hg.
    pose proof (loop_state_inv ps tr (i, j) Hne Hl) as [_ Hj]. cbn in Hj.
    apply bisect_guard_true in Hg.
    split; [lia |].
    destruct (bisect_step_inv ps tr i j Hg Hj) as (i' & j' & Hs & Hb).
    exists i', j'. split; [exact Hs | lia].
  - intros i j Hl Hg.
    pose proof (loop_state_inv ps tr (i, j) Hne Hl) as [Hij Hj]. cbn in Hij, Hj.
    destruct (nearest_of_spec ps ts i j) as (pi & pj & _ & _ & Hn); [lia | lia |].
    eexists. split; [exact Hn |].
    destruct (duration_lt _ _); split; auto; lia.
Qed.

Lemma getSensorPosition_terminates_in_bounds_witness :
  exists res,
    getSensorPosition (Some Samples.sample_path) (mkTime 10 150000000) = Ok res.
Proof.
  apply (getSensorPosition_terminates_in_bounds
           Samples.sample_path (mkTime 10 150000000)).
  discriminate.
Defined.

(** C9 as claimed fails on a path of one pose: the lookup reaches the
    loop with [i = j = 0], so [i < j] does not hold there (the loop then
    runs no iteration, and the pose is returned). *)
Lemma bisect_single_pose_i_eq_j :
  let path := {| poses := [Samples.entry 10 0 1] |} in
  let ts := mkTime 10 0 in
  poses path <> [] /\
  within_range (poses path) (roundTimeStamp ts) = true /\
  loop_state (poses path) (roundTimeStamp ts) (0, 0) /\
  ~ (0 < 0 < length (poses path)) /\
  bisect (length (poses path)) (poses path) (roundTimeStamp ts)
    (0, length (poses path) - 1) = Ok (0, 0) /\
  getSensorPosition (Some path) ts
  = Ok (Some (sensor_pose_of (Samples.entry 10 0 1))).
Proof.
  intros path ts. split; [discriminate |]. split; [reflexivity |].
  split; [apply (loop_enter (poses path)) |]. split; [lia |].
  split; reflexivity.
Qed.

End PoseLookup.

(** ** Nearest pose *)

Module NearestFacts.
Import RosTime RosTimeFacts Msgs Node BisectFacts LookupFacts.
Local Open Scope Z_scope.




End NearestFacts.

Section NearestPose.
Import RosTime RosTimeFacts Msgs Node BisectFacts LookupFacts NearestFacts.
Local Open Scope Z_scope.



Example getSensorPosition_sample :
  getSensorPosition (Some Samples.sample_path) (mkTime 10 150000000)
  = Ok (Some (sensor_pose_of (Samples.entry 10 100400000 2))).
Proof. vm_compute. reflexivity. Qed.



End NearestPose.

(** ** The keyframe queue *)

Module QueueFacts.
Import RosTime RosTimeFacts Msgs Mapper Node BisectFacts LookupFacts.

(** The lookup of line 108 is the negation of [within_range]. *)
Lemma outside_within_range ps front back tr :
  ps !! 0 = Some front -> ps !! (length ps - 1) = Some back ->
  outside front back tr = negb (within_range ps tr).
Proof.
  intros Hf Hb. unfold within_range, outside.
  rewrite head_lookup, last_lookup.
  replace (pred (length ps)) with (length ps - 1) by lia.
  rewrite Hf, Hb. unfold time_gt, time_lt, time_le.
  destruct (Z.ltb_spec (sec (rstamp front)) (sec tr)),
           (Z.ltb_spec (sec tr) (sec (rstamp front))),
           (Z.eqb_spec (sec (rstamp front)) (sec tr)),
           (Z.ltb_spec (nsec tr) (nsec (rstamp front))),
           (Z.leb_spec (nsec (rstamp front)) (nsec tr)),
           (Z.ltb_spec (sec (rstamp back)) (sec tr)),
           (Z.ltb_spec (sec tr) (sec (rstamp back))),
           (Z.eqb_spec (sec (rstamp back)) (sec tr)),
           (Z.eqb_spec (sec tr) (sec (rstamp back))),
           (Z.ltb_spec (nsec (rstamp back)) (nsec tr)),
           (Z.leb_spec (nsec tr) (nsec (rstamp back)));
    cbn; try reflexivity; lia.
Qed.

(** When [getSensorPosition] returns [false], and what it returns otherwise. *)
Lemma getSensorPosition_cases (current_path : option Path) (ts : Time) :
  match current_path with
  | None => getSensorPosition current_path ts = Ok None
  | Some path =>
      if bool_decide (poses path = []) then getSensorPosition current_path ts = Ok None
      else if within_range (poses path) (roundTimeStamp ts)
      then exists k p, poses path !! k = Some p /\
             getSensorPosition current_path ts = Ok (Some (sensor_pose_of p))
      else getSensorPosition current_path ts = Ok None
  end.
Proof.
  destruct current_path as [path |]; [| reflexivity].
  case_bool_decide as He.
  - unfold getSensorPosition. now rewrite bool_decide_eq_true_2.
  - destruct (getSensorPosition_course path ts He) as (front & back & Hf & Hb & Hc).
    rewrite (outside_within_range _ _ _ _ Hf Hb) in Hc.
    destruct (within_range (poses path) (roundTimeStamp ts)); cbn in Hc.
    + destruct (Hc (fun _ => True) I) as (ij & pi & pj & p & H); [auto |].
      destruct H as (_ & _ & _ & _ & _ & Hp & Hget). eauto.
    + exact Hc.
Qed.

Section WithGeometry.
Context `{Geometry}.

(** The loop of [processCloudMsgQueue] ingests a prefix of the queue, in
    order, each cloud with the pose looked up for its stamp, and stops on
    an empty queue or on a message whose lookup fails. *)
Lemma drain_spec path queue m log :
  exists (posed : list PointCloud) (rest : list PointCloud2),
    drain path queue m log
    = Ok (rest, foldl addPointCloudToScene m posed, log ++ posed) /\
    queue = map pc_msg posed ++ rest /\
    Forall (fun c => exists sp,
              getSensorPosition path (cloud_stamp (pc_msg c)) = Ok (Some sp) /\
              c = posed_cloud (pc_msg c) sp) posed /\
    match rest with
    | [] => True
    | msg :: _ => getSensorPosition path (cloud_stamp msg) = Ok None
    end.
Proof.
  revert m log. induction queue as [| msg queue IH]; intros m log.
  - exists [], []. cbn. rewrite app_nil_r. auto.
  - cbn [drain].
    destruct (getSensorPosition_returns path (cloud_stamp msg)) as ([sp |] & Hres);
      rewrite Hres; cbn [mbind result_bind].
    + destruct (IH (addPointCloudToScene m (posed_cloud msg sp))
                   (log ++ [posed_cloud msg sp]))
        as (posed & rest & Hd & Hq & Hall & Hstop).
      exists (posed_cloud msg sp :: posed), rest.
      rewrite Hd, <- app_assoc. cbn. repeat split; [congruence | | exact Hstop].
      constructor; [eauto | exact Hall].
    + exists [], (msg :: queue). cbn. rewrite app_nil_r. auto.
Qed.

End WithGeometry.
End QueueFacts.

Section KeyframeQueue.
Import RosTime RosTimeFacts Msgs Mapper Node Run BisectFacts LookupFacts QueueFacts.
Context `{Geometry}.

(** What one call of [processCloudMsgQueue] does when the mapper exists. *)
Lemma processCloudMsgQueue_spec (s : State) (m : SurfelMapper) :
  mapper s = Some m ->
  exists (posed : list PointCloud) (rest : list PointCloud2),
    processCloudMsgQueue s
    = Ok {| params := params s; current_path := current_path s;
            cloudMsgQueue := rest;
            mapper := Some (foldl addPointCloudToScene m posed);
            ingested := ingested s ++ posed |} /\
    cloudMsgQueue s = map pc_msg posed ++ rest /\
    Forall (fun c => exists sp,
              getSensorPosition (current_path s) (cloud_stamp (pc_msg c))
              = Ok (Some sp) /\ c = posed_cloud (pc_msg c) sp) posed /\
    match rest with
    | [] => True
    | msg :: _ => getSensorPosition (current_path s) (cloud_stamp msg) = Ok None
    end.
Proof.
  intros Hm.
  destruct (drain_spec (current_path s) (cloudMsgQueue s) m (ingested s))
    as (posed & rest & Hd & Hq & Hall & Hstop).
  exists posed, rest. unfold processCloudMsgQueue. rewrite Hm, Hd. cbn. auto.
Qed.

(** C3: [getSensorPosition] returns [false] exactly when there is no path,
    or the path has no poses, or the rounded keyframe stamp is outside the
    rounded range, first to last, of the path, and returns [true] with a
    pose otherwise; and when it returns [false] for the keyframe at the
    front of the queue, [processCloudMsgQueue] leaves the whole state, so
    the queue with that keyframe at its front, as it was. *)
Theorem getSensorPosition_false_iff :
  (forall (current_path : option Path) (ts : Time),
     (getSensorPosition current_path ts = Ok None <->
        current_path = None \/
        exists path, current_path = Some path /\
          (poses path = [] \/ within_range (poses path) (roundTimeStamp ts) = false)) /\
     (getSensorPosition current_path ts = Ok None \/
      exists sp, getSensorPosition current_path ts = Ok (Some sp))) /\
  (forall (s : State) (msg : PointCloud2) (rest : list PointCloud2),
     cloudMsgQueue s = msg :: rest ->
     getSensorPosition (current_path s) (cloud_stamp msg) = Ok None ->
     processCloudMsgQueue s = Ok s).
Proof.
  split.
  - intros cp ts. pose proof (getSensorPosition_cases cp ts) as Hc.
    destruct cp as [path |].
    + case_bool_decide as He.
      * split; [| now left]. split; [| auto]. intros _. right. eauto.
      * destruct (within_range (poses path) (roundTimeStamp ts)) eqn:Hw.
        -- destruct Hc as (k & p & _ & Hget). rewrite Hget. split; [| eauto].
           split; [discriminate |].
           intros [? | (path' & [= <-] & [? | ?])]; congruence.
        -- split; [| now left]. split; [| auto]. intros _. right. eauto.
    + split; [| now left]. split; auto.
  - intros s msg rest Hq Hfail. unfold processCloudMsgQueue.
    destruct (mapper s) as [m |] eqn:Hm; [| reflexivity].
    rewrite Hq. cbn [drain]. rewrite Hfail. cbn.
    destruct s; cbn in *. now subst.
Qed.

End KeyframeQueue.

Section KeyframeQueueSamples.
Import RosTime Msgs Mapper Node Run.

Lemma getSensorPosition_false_iff_witness :
  let s := {| params := Samples.sample_params;
              current_path := Some Samples.sample_path;
              cloudMsgQueue := [Samples.keyframe 12 0; Samples.keyframe 10 0];
              mapper := Some (new_SurfelMapper Samples.sample_params
                                (camera_params_of Samples.sample_camera_info));
              ingested := [] |} in
  getSensorPosition (current_path s) (mkTime 12 0) = Ok None /\
  processCloudMsgQueue (H := Samples.sample_geometry) s = Ok s.
Proof.
  split; [reflexivity |].
  eapply (getSensorPosition_false_iff (H := Samples.sample_geometry)); reflexivity.
Defined.

End KeyframeQueueSamples.

(** ** Runs: arrival order and the camera-info message *)

Module RunFacts.
Import RosTime Msgs Mapper Node Run QueueFacts.

Section WithGeometry.
Context `{Geometry}.

(** One call of [processCloudMsgQueue], with or without a mapper: it
    returns, moves a prefix of the queue to the end of the record of
    ingested clouds, and changes neither the path nor the parameters. *)
Lemma processCloudMsgQueue_moves (s : State) :
  exists (s' : State) (posed : list PointCloud),
    processCloudMsgQueue s = Ok s' /\
    ingested s' = ingested s ++ posed /\
    cloudMsgQueue s = map pc_msg posed ++ cloudMsgQueue s' /\
    current_path s' = current_path s /\ params s' = params s /\
    (mapper s = None -> s' = s) /\
    (is_Some (mapper s) -> is_Some (mapper s')) /\
    Forall (fun c => exists sp,
              getSensorPosition (current_path s) (cloud_stamp (pc_msg c))
              = Ok (Some sp) /\ c = posed_cloud (pc_msg c) sp) posed /\
    (is_Some (mapper s) ->
     match cloudMsgQueue s' with
     | [] => True
     | msg :: _ => getSensorPosition (current_path s) (cloud_stamp msg) = Ok None
     end).
Proof.
  unfold processCloudMsgQueue. destruct (mapper s) as [m |] eqn:Hm.
  - destruct (drain_spec (current_path s) (cloudMsgQueue s) m (ingested s))
      as (posed & rest & Hd & Hq & Hall & Hstop).
    rewrite Hd. cbn. eexists _, posed. split; [reflexivity |]. cbn.
    repeat split; auto. discriminate.
  - exists s, []. cbn. rewrite app_nil_r.
    repeat split; auto; intros [? ?]; discriminate.
Qed.

(** Each event is handled, adds its keyframe (if it is one) behind the
    queue, and only extends the record of ingested clouds. *)
Lemma handle_moves (e : Event) (s : State) :
  exists s' : State,
    handle e s = Ok s' /\
    map pc_msg (ingested s') ++ cloudMsgQueue s'
    = (map pc_msg (ingested s) ++ cloudMsgQueue s) ++ keyframes [e] /\
    ingested s `prefix_of` ingested s' /\
    params s' = params s /\
    (is_camera_info e = false -> mapper s = None ->
       mapper s' = None /\ ingested s' = ingested s).
Proof.
  destruct e as [msg | msg | msg | |]; cbn [handle keyframes omap is_camera_info].
  - exists (pathCallback msg s). cbn. rewrite !app_nil_r. by repeat split.
  - unfold keyframeCallback.
    match goal with |- context [processCloudMsgQueue ?s0] =>
      destruct (processCloudMsgQueue_moves s0)
        as (s' & posed & Hp & Hi & Hq & _ & Hpar & Hnone & _) end.
    cbn in Hi, Hq, Hnone, Hpar. exists s'. split; [exact Hp |].
    split; [| split; [| split; [assumption |]]].
    + change (keyframes [KeyframeMsg msg]) with [msg].
      rewrite Hi, map_app, <- !app_assoc, <- Hq. reflexivity.
    + rewrite Hi. by apply prefix_app_r.
    + intros _ Hn. by rewrite (Hnone Hn).
  - unfold cameraInfoCallback. destruct (mapper s) as [m |] eqn:Hm.
    + exists s. cbn. rewrite !app_nil_r. by repeat split.
    + match goal with |- context [processCloudMsgQueue ?s0] =>
        destruct (processCloudMsgQueue_moves s0)
          as (s' & posed & Hp & Hi & Hq & _ & Hpar & _) end.
      cbn in Hi, Hq, Hpar. exists s'. split; [exact Hp |].
      split; [| split; [| split; [assumption | discriminate]]].
      * cbn [keyframes omap]. rewrite app_nil_r, Hi, map_app, <- !app_assoc, <- Hq.
      reflexivity.
      * rewrite Hi. by apply prefix_app_r.
  - unfold resetMapCallback. destruct (mapper s) as [m |] eqn:Hm; cbn.
    + eexists. split; [reflexivity |]. cbn. rewrite !app_nil_r.
      by repeat split.
    + exists s. rewrite !app_nil_r. by repeat split.
  - destruct (processCloudMsgQueue_moves s)
      as (s' & posed & Hp & Hi & Hq & _ & Hpar & Hnone & _).
    exists s'. split; [exact Hp |].
    split; [| split; [| split; [assumption |]]].
    + cbn [keyframes omap]. rewrite app_nil_r, Hi, map_app, <- !app_assoc, <- Hq.
      reflexivity.
    + rewrite Hi. by apply prefix_app_r.
    + intros _ Hn. by rewrite (Hnone Hn).
Qed.

Lemma keyframes_cons e evs : keyframes (e :: evs) = keyframes [e] ++ keyframes evs.
Proof. unfold keyframes. cbn. now destruct e. Qed.

Lemma run_moves (evs : list Event) (s : State) :
  exists s' : State,
    run evs s = Ok s' /\
    map pc_msg (ingested s') ++ cloudMsgQueue s'
    = (map pc_msg (ingested s) ++ cloudMsgQueue s) ++ keyframes evs /\
    ingested s `prefix_of` ingested s' /\
    params s' = params s /\
    (forallb (fun e => negb (is_camera_info e)) evs = true -> mapper s = None ->
       mapper s' = None /\ ingested s' = ingested s).
Proof.
  revert s. induction evs as [| e evs IH]; intros s.
  - exists s. cbn. rewrite app_nil_r. by repeat split.
  - destruct (handle_moves e s) as (s1 & Hh & Hq1 & Hp1 & Hpar1 & Hn1).
    destruct (IH s1) as (s2 & Hr & Hq2 & Hp2 & Hpar2 & Hn2).
    exists s2. cbn [run]. rewrite Hh. cbn [mbind result_bind].
    split; [exact Hr |]. rewrite Hq2, Hq1, (keyframes_cons e evs), <- !app_assoc.
    split; [reflexivity |]. split; [by etrans |]. split; [congruence |].
    intros Hall Hm. cbn in Hall. apply andb_true_iff in Hall as [He Hall].
    apply negb_true_iff in He. destruct (Hn1 He Hm) as [Hm1 Hi1].
    destruct (Hn2 Hall Hm1) as [Hm2 Hi2]. split; congruence.
Qed.

(** Once created, the mapper is there for good. *)
Lemma handle_keeps_mapper (e : Event) (s : State) :
  is_Some (mapper s) ->
  exists s' : State, handle e s = Ok s' /\ is_Some (mapper s').
Proof.
  intros Hm. destruct e as [msg | msg | msg | |]; cbn [handle].
  - exists (pathCallback msg s). auto.
  - unfold keyframeCallback.
    match goal with |- context [processCloudMsgQueue ?s0] =>
      destruct (processCloudMsgQueue_moves s0)
        as (s' & posed & Hp & _ & _ & _ & _ & _ & Hk & _) end.
    exists s'. split; [exact Hp | apply Hk, Hm].
  - unfold cameraInfoCallback. destruct Hm as [m Hm]. rewrite Hm.
    exists s. rewrite Hm. eauto.
  - unfold resetMapCallback. destruct Hm as [m Hm]. rewrite Hm.
    eexists. split; [reflexivity |]. cbn. eauto.
  - destruct (processCloudMsgQueue_moves s)
      as (s' & posed & Hp & _ & _ & _ & _ & _ & Hk & _).
    exists s'. split; [exact Hp | apply Hk, Hm].
Qed.

Lemma run_keeps_mapper (evs : list Event) (s : State) :
  is_Some (mapper s) ->
  exists s' : State, run evs s = Ok s' /\ is_Some (mapper s').
Proof.
  revert s. induction evs as [| e evs IH]; intros s Hm.
  - exists s. auto.
  - destruct (handle_keeps_mapper e s Hm) as (s1 & Hh & Hm1).
    destruct (IH s1 Hm1) as (s2 & Hr & Hm2).
    exists s2. cbn [run]. rewrite Hh. auto.
Qed.

Lemma run_app (evs1 evs2 : list Event) (s : State) :
  run (evs1 ++ evs2) s = run evs1 s ≫= run evs2.
Proof.
  revert s. induction evs1 as [| e evs1 IH]; intros s; [reflexivity |].
  cbn [run app]. destruct (handle e s); cbn; auto.
Qed.

End WithGeometry.
End RunFacts.

Module FusionFacts.
Import RosTime Msgs Mapper Node Run QueueFacts RunFacts Fusion.

Section WithGeometry.
Context `{Geometry}.

Lemma apply_ops_Fuse (m : SurfelMapper) (posed : list PointCloud) :
  apply_ops m (Fuse <$> posed) = foldl addPointCloudToScene m posed.
Proof.
  unfold apply_ops. revert m. induction posed as [| c posed IH]; intros m;
    [reflexivity |].
  cbn. apply IH.
Qed.

Lemma fused_Fuse (posed : list PointCloud) : fused (Fuse <$> posed) = posed.
Proof.
  unfold fused. induction posed as [| c posed IH]; [reflexivity |].
  cbn. now rewrite IH.
Qed.

(** One call of [processCloudMsgQueue]: the clouds it moves from the
    queue to the record of ingested clouds are the clouds it fuses into
    the map, in that order. *)
Lemma processCloudMsgQueue_fuses (s : State) :
  exists (s' : State) (posed : list PointCloud),
    processCloudMsgQueue s = Ok s' /\
    ingested s' = ingested s ++ posed /\
    cloudMsgQueue s = map pc_msg posed ++ cloudMsgQueue s' /\
    mapper s' = (fun m => foldl addPointCloudToScene m posed) <$> mapper s /\
    params s' = params s /\
    Forall (fun c => exists sp,
              getSensorPosition (current_path s) (cloud_stamp (pc_msg c))
              = Ok (Some sp) /\ c = posed_cloud (pc_msg c) sp) posed /\
    (is_Some (mapper s) ->
     match cloudMsgQueue s' with
     | [] => True
     | msg :: _ => getSensorPosition (current_path s) (cloud_stamp msg) = Ok None
     end).
Proof.
  unfold processCloudMsgQueue. destruct (mapper s) as [m |] eqn:Hm.
  - destruct (drain_spec (current_path s) (cloudMsgQueue s) m (ingested s))
      as (posed & rest & Hd & Hq & Hall & Hstop).
    rewrite Hd. cbn. eexists _, posed. split; [reflexivity |]. cbn.
    repeat split; auto.
  - exists s, []. cbn. rewrite app_nil_r, Hm.
    repeat split; auto; intros [? ?]; discriminate.
Qed.

(** A call of [processCloudMsgQueue] keeps the map in step with the
    record of ingested clouds. *)
Lemma processCloudMsgQueue_fused (s s' : State) :
  fused_in_order s -> processCloudMsgQueue s = Ok s' -> fused_in_order s'.
Proof.
  intros Hinv Hp.
  destruct (processCloudMsgQueue_fuses s)
    as (s1 & posed & Hp1 & Hi & _ & Hmap & Hpar & _).
  rewrite Hp in Hp1. injection Hp1 as <-.
  unfold fused_in_order in *. rewrite Hmap, Hi, Hpar.
  destruct (mapper s) as [m |] eqn:Hm; cbn [fmap option_fmap option_map].
  - destruct Hinv as (cam & ops & -> & Hf).
    exists cam, (ops ++ (Fuse <$> posed)). split.
    + unfold apply_ops. rewrite foldl_app. symmetry. apply (apply_ops_Fuse _ posed).
    + unfold fused. rewrite omap_app. fold (fused ops) (fused (Fuse <$> posed)).
      now rewrite Hf, fused_Fuse.
  - destruct (processCloudMsgQueue_moves s)
      as (s2 & posed2 & Hp2 & _ & _ & _ & _ & Hnone & _).
    rewrite Hp in Hp2. injection Hp2 as <-.
    rewrite (Hnone Hm) in Hi. rewrite Hinv in Hi.
    destruct posed; [now rewrite Hinv | discriminate].
Qed.

Lemma handle_fused (e : Event) (s s' : State) :
  fused_in_order s -> handle e s = Ok s' -> fused_in_order s'.
Proof.
  intros Hinv. destruct e as [msg | msg | msg | |]; cbn [handle].
  - intros [= <-]. exact Hinv.
  - unfold keyframeCallback. apply processCloudMsgQueue_fused. exact Hinv.
  - unfold cameraInfoCallback. destruct (mapper s) as [m |] eqn:Hm.
    + intros [= <-]. exact Hinv.
    + apply processCloudMsgQueue_fused.
      unfold fused_in_order in *. rewrite Hm in Hinv. cbn.
      exists (camera_params_of msg), []. split; [reflexivity |].
      now rewrite Hinv.
  - unfold resetMapCallback. destruct (mapper s) as [m |] eqn:Hm; cbn.
    + intros [= <-]. unfold fused_in_order in *. rewrite Hm in Hinv. cbn.
      destruct Hinv as (cam & ops & -> & Hf).
      exists cam, (ops ++ [Reset]). split.
      * unfold apply_ops. now rewrite foldl_app.
      * unfold fused. rewrite omap_app. cbn. fold (fused ops).
        now rewrite app_nil_r.
    + intros [= <-]. exact Hinv.
  - apply processCloudMsgQueue_fused. exact Hinv.
Qed.

Lemma run_fused (evs : list Event) (s s' : State) :
  fused_in_order s -> run evs s = Ok s' -> fused_in_order s'.
Proof.
  revert s. induction evs as [| e evs IH]; intros s Hinv Hr.
  - cbn in Hr. now injection Hr as <-.
  - cbn [run] in Hr. destruct (handle e s) as [s1 | | |] eqn:Hh; try discriminate.
    cbn [mbind result_bind] in Hr.
    apply (IH s1); [| exact Hr]. exact (handle_fused e s s1 Hinv Hh).
Qed.

End WithGeometry.
End FusionFacts.

Section ArrivalOrder.
Import RosTime Msgs Mapper Node Run QueueFacts RunFacts Fusion FusionFacts.
Context `{Geometry}.

(** C4: keyframes are consumed in arrival order.  After any sequence of
    events the clouds ingested so far, followed by the queue, are the
    keyframes that arrived, in arrival order; what has been ingested stays
    a prefix of what is ingested later; the map is what the fusion of the
    ingested clouds, one after the other in that order (with the resets
    requested in between), makes of a new map; and each call of
    [processCloudMsgQueue] returns having taken a prefix of the queue, in
    order and each cloud with the pose looked up for it, fused exactly
    these clouds into the map in that order, and stopped (when there is a
    mapper) on an empty queue or on the first keyframe whose lookup
    fails. *)
Theorem keyframes_consumed_in_arrival_order
    (p : NodeParams) (evs1 evs2 : list Event) :
  (exists s1 s2 : State,
     run evs1 (initial p) = Ok s1 /\
     run (evs1 ++ evs2) (initial p) = Ok s2 /\
     map pc_msg (ingested s1) ++ cloudMsgQueue s1 = keyframes evs1 /\
     ingested s1 `prefix_of` ingested s2 /\
     fused_in_order s1 /\ fused_in_order s2) /\
  (forall s : State,
     exists (s' : State) (posed : list PointCloud),
       processCloudMsgQueue s = Ok s' /\
       ingested s' = ingested s ++ posed /\
       cloudMsgQueue s = map pc_msg posed ++ cloudMsgQueue s' /\
       mapper s' = (fun m => foldl addPointCloudToScene m posed) <$> mapper s /\
       Forall (fun c => exists sp,
                 getSensorPosition (current_path s) (cloud_stamp (pc_msg c))
                 = Ok (Some sp) /\ c = posed_cloud (pc_msg c) sp) posed /\
       (is_Some (mapper s) ->
        match cloudMsgQueue s' with
        | [] => True
        | msg :: _ =>
            getSensorPosition (current_path s) (cloud_stamp msg) = Ok None
        end)).
Proof.
  split.
  - destruct (run_moves evs1 (initial p)) as (s1 & Hr1 & Hq1 & _).
    destruct (run_moves evs2 s1) as (s2 & Hr2 & _ & Hp2 & _).
    assert (Hinit : fused_in_order (initial p)) by reflexivity.
    pose proof (run_fused evs1 (initial p) s1 Hinit Hr1) as Hf1.
    pose proof (run_fused evs2 s1 s2 Hf1 Hr2) as Hf2.
    exists s1, s2. rewrite run_app, Hr1. cbn [mbind result_bind].
    repeat split; [exact Hr2 | exact Hq1 | exact Hp2 | exact Hf1 | exact Hf2].
  - intros s.
    destruct (processCloudMsgQueue_fuses s)
      as (s' & posed & Hp & Hi & Hq & Hmap & _ & Hall & Hstop).
    exists s', posed. auto 7.
Qed.

(** C5, as the code has it: a camera-info message that finds no mapper
    creates one from the node parameters and the intrinsics [K[0]],
    [K[4]], [K[2]], [K[5]] and at once runs [processCloudMsgQueue] with it:
    the buffered keyframes are ingested in order up to the first one whose
    pose lookup fails, which stays buffered with those behind it, so that
    all are ingested when every lookup succeeds; a message that finds a
    mapper changes nothing, and a mapper once created stays; and as long
    as no camera-info message has arrived, no keyframe is ingested and all
    those that arrived are in the queue. *)
Theorem camera_info_creates_mapper_once :
  (forall (msg : CameraInfo) (s : State),
     mapper s = None ->
     let fresh :=
       new_SurfelMapper (params s)
         {| alpha := K msg 0; beta := K msg 4; cx := K msg 2; cy := K msg 5 |} in
     mp_camera fresh
     = {| alpha := K msg 0; beta := K msg 4; cx := K msg 2; cy := K msg 5 |} /\
     cameraInfoCallback msg s
     = processCloudMsgQueue
         {| params := params s; current_path := current_path s;
            cloudMsgQueue := cloudMsgQueue s; mapper := Some fresh;
            ingested := ingested s |} /\
     exists (posed : list PointCloud) (rest : list PointCloud2),
       cameraInfoCallback msg s
       = Ok {| params := params s; current_path := current_path s;
               cloudMsgQueue := rest;
               mapper := Some (foldl addPointCloudToScene fresh posed);
               ingested := ingested s ++ posed |} /\
       cloudMsgQueue s = map pc_msg posed ++ rest /\
       Forall (fun c => exists sp,
                 getSensorPosition (current_path s) (cloud_stamp (pc_msg c))
                 = Ok (Some sp) /\ c = posed_cloud (pc_msg c) sp) posed /\
       match rest with
       | [] => True
       | kf :: _ => getSensorPosition (current_path s) (cloud_stamp kf) = Ok None
       end /\
       (Forall (fun kf =>
                  getSensorPosition (current_path s) (cloud_stamp kf) <> Ok None)
               (cloudMsgQueue s) -> rest = [])) /\
  (forall (msg : CameraInfo) (s : State),
     is_Some (mapper s) -> cameraInfoCallback msg s = Ok s) /\
  (forall (evs : list Event) (s : State),
     is_Some (mapper s) ->
     exists s' : State, run evs s = Ok s' /\ is_Some (mapper s')) /\
  (forall (p : NodeParams) (evs : list Event),
     forallb (fun e => negb (is_camera_info e)) evs = true ->
     exists s : State,
       run evs (initial p) = Ok s /\
       mapper s = None /\ ingested s = [] /\ cloudMsgQueue s = keyframes evs).
Proof.
  split; [| split; [| split]].
  - intros msg s Hm fresh. split; [reflexivity |].
    assert (Hcb : cameraInfoCallback msg s
                  = processCloudMsgQueue
                      {| params := params s; current_path := current_path s;
                         cloudMsgQueue := cloudMsgQueue s; mapper := Some fresh;
                         ingested := ingested s |}).
    { unfold cameraInfoCallback. rewrite Hm. reflexivity. }
    split; [exact Hcb |]. rewrite Hcb.
    match goal with |- context [processCloudMsgQueue ?s0] =>
      destruct (processCloudMsgQueue_spec s0 fresh eq_refl)
        as (posed & rest & Hp & Hq & Hall & Hstop) end.
    cbn [params current_path cloudMsgQueue ingested] in Hp, Hq, Hall, Hstop.
    exists posed, rest.
    split; [exact Hp |]. split; [exact Hq |]. split; [exact Hall |].
    split; [exact Hstop |].
    intros Hevery. destruct rest as [| kf rest]; [reflexivity |]. exfalso.
    rewrite Hq in Hevery. apply Forall_app in Hevery as [_ Hevery].
    inversion Hevery; subst. contradiction.
  - intros msg s [m Hm]. unfold cameraInfoCallback. now rewrite Hm.
  - intros evs s Hm. now apply run_keeps_mapper.
  - intros p evs Hno.
    destruct (run_moves evs (initial p)) as (s & Hr & Hq & _ & _ & Hn).
    destruct (Hn Hno eq_refl) as [Hm Hi].
    exists s. rewrite Hi in Hq. cbn in Hq. auto.
Qed.

End ArrivalOrder.

Section ArrivalOrderSamples.
Import RosTime Msgs Mapper Node Run.

(** Two keyframes wait for the camera-info message; when it comes the
    first one, which the path covers, is ingested, and the second, which
    it does not cover, stays at the front of the queue. *)
Example run_sample :
  let k1 := Samples.keyframe 10 150000000 in
  let k2 := Samples.keyframe 12 0 in
  exists s : State,
    run (H := Samples.sample_geometry)
      [KeyframeMsg k1; PathMsg Samples.sample_path; KeyframeMsg k2;
       CameraInfoMsg Samples.sample_camera_info]
      (initial Samples.sample_params) = Ok s /\
    map pc_msg (ingested s) = [k1] /\ cloudMsgQueue s = [k2].
Proof. eexists. split; [reflexivity |]. split; reflexivity. Qed.

Lemma keyframes_consumed_in_arrival_order_witness :
  let evs1 := [KeyframeMsg (Samples.keyframe 10 150000000);
               PathMsg Samples.sample_path] in
  let evs2 := [KeyframeMsg (Samples.keyframe 12 0);
               CameraInfoMsg Samples.sample_camera_info] in
  exists s1 s2 : State,
    run (H := Samples.sample_geometry) evs1 (initial Samples.sample_params) = Ok s1 /\
    run (H := Samples.sample_geometry) (evs1 ++ evs2) (initial Samples.sample_params)
    = Ok s2 /\
    map pc_msg (ingested s1) ++ cloudMsgQueue s1 = keyframes evs1 /\
    ingested s1 `prefix_of` ingested s2 /\
    Fusion.fused_in_order (H := Samples.sample_geometry) s1 /\
    Fusion.fused_in_order (H := Samples.sample_geometry) s2.
Proof.
  intros evs1 evs2.
  apply (keyframes_consumed_in_arrival_order (H := Samples.sample_geometry)
           Samples.sample_params evs1 evs2).
Defined.

Lemma camera_info_creates_mapper_once_witness :
  let s := {| params := Samples.sample_params;
              current_path := Some Samples.sample_path;
              cloudMsgQueue := [Samples.keyframe 10 150000000; Samples.keyframe 12 0];
              mapper := None; ingested := [] |} in
  mapper s = None /\
  cameraInfoCallback (H := Samples.sample_geometry) Samples.sample_camera_info s
  = processCloudMsgQueue (H := Samples.sample_geometry)
      {| params := params s; current_path := current_path s;
         cloudMsgQueue := cloudMsgQueue s;
         mapper := Some (new_SurfelMapper (params s)
                           {| alpha := K Samples.sample_camera_info 0;
                              beta := K Samples.sample_camera_info 4;
                              cx := K Samples.sample_camera_info 2;
                              cy := K Samples.sample_camera_info 5 |});
         ingested := ingested s |}.
Proof.
  split; [reflexivity |].
  apply (camera_info_creates_mapper_once (H := Samples.sample_geometry)).
  reflexivity.
Defined.

(** C5 as claimed fails: with two keyframes buffered of which the path
    does not cover the first, or with no path yet, the first camera-info
    message creates the mapper but ingests none of them; they all stay in
    the queue. *)
Lemma cameraInfoCallback_leaves_keyframes_buffered :
  let buffered := [Samples.keyframe 12 0; Samples.keyframe 10 150000000] in
  let fresh := new_SurfelMapper Samples.sample_params
                 (camera_params_of Samples.sample_camera_info) in
  (let s := {| params := Samples.sample_params;
               current_path := Some Samples.sample_path;
               cloudMsgQueue := buffered; mapper := None; ingested := [] |} in
   cameraInfoCallback (H := Samples.sample_geometry) Samples.sample_camera_info s
   = Ok {| params := Samples.sample_params;
           current_path := Some Samples.sample_path;
           cloudMsgQueue := buffered; mapper := Some fresh; ingested := [] |}) /\
  (let s := {| params := Samples.sample_params; current_path := None;
               cloudMsgQueue := buffered; mapper := None; ingested := [] |} in
   cameraInfoCallback (H := Samples.sample_geometry) Samples.sample_camera_info s
   = Ok {| params := Samples.sample_params; current_path := None;
           cloudMsgQueue := buffered; mapper := Some fresh; ingested := [] |}).
Proof. split; reflexivity. Qed.

End ArrivalOrderSamples.

(** ** Marker publishing *)

Module MarkerFacts.
Import Mapper Markers.

Lemma nmarkers_bound (point_indices : list Z) :
  (Z.of_nat (nmarkers point_indices) <= MAX_MARKERS)%Z /\
  nmarkers point_indices <= length point_indices.
Proof.
  unfold nmarkers, MAX_MARKERS, wrap32.
  pose proof (Z.mod_pos_bound (Z.of_nat (length point_indices)) (2 ^ 32) ltac:(lia)).
  pose proof (Z.mod_le (Z.of_nat (length point_indices)) (2 ^ 32) ltac:(lia) ltac:(lia)).
  lia.
Qed.

Section WithGeometry.
Context `{Geometry}.

Lemma emitted_id cloud point_indices i mk :
  emitted cloud point_indices i = Some mk -> id mk = Z.of_nat i.
Proof.
  unfold emitted. destruct (point_indices !! i); [| discriminate].
  destruct (at_ cloud _); try discriminate.
  destruct (_ && _); [| discriminate].
  intros [= <-]. unfold marker_of.
  now destruct (setFromTwoVectors _ _) as [[[? ?] ?] ?].
Qed.

(** The loop appends, position after position, what each position emits. *)
Lemma marker_loop_Ok cloud point_indices count i acc out :
  marker_loop cloud point_indices count i acc = Ok out ->
  out = acc ++ omap (emitted cloud point_indices) (seq i count).
Proof.
  revert i acc. induction count as [| count IH]; intros i acc Hl.
  - cbn in Hl. injection Hl as <-. cbn. now rewrite app_nil_r.
  - cbn [marker_loop] in Hl. unfold subscript in Hl.
    destruct (point_indices !! i) as [n |] eqn:Hn; [| discriminate].
    cbn [mbind result_bind] in Hl.
    destruct (at_ cloud n) as [point | | |] eqn:Hp; try discriminate.
    cbn [mbind result_bind] in Hl.
    apply IH in Hl. rewrite Hl.
    change (seq i (S count)) with (i :: seq (S i) count).
    change (omap (emitted cloud point_indices) (i :: seq (S i) count))
      with (match emitted cloud point_indices i with
            | Some mk => mk :: omap (emitted cloud point_indices) (seq (S i) count)
            | None => omap (emitted cloud point_indices) (seq (S i) count)
            end).
    unfold emitted at 2. rewrite Hn, Hp.
    destruct (isFinite point && (i mod 2 =? 0)); [| reflexivity].
    now rewrite <- app_assoc.
Qed.

(** The loop returns when every position it visits names a surfel of the
    scene. *)
Lemma marker_loop_returns cloud point_indices count i acc :
  (forall t, i <= t < i + count ->
     exists n p, point_indices !! t = Some n /\ at_ cloud n = Ok p) ->
  exists out, marker_loop cloud point_indices count i acc = Ok out.
Proof.
  revert i acc. induction count as [| count IH]; intros i acc Hall.
  - eexists. reflexivity.
  - destruct (Hall i ltac:(lia)) as (n & p & Hn & Hp).
    cbn [marker_loop]. unfold subscript. rewrite Hn. cbn [mbind result_bind].
    rewrite Hp. cbn [mbind result_bind].
    apply IH. intros t Ht. apply Hall. lia.
Qed.

Lemma NoDup_omap_ids (f : nat -> option Marker) (l : list nat) :
  (forall t mk, f t = Some mk -> id mk = Z.of_nat t) ->
  NoDup l -> NoDup (map id (omap f l)).
Proof.
  intros Hid. induction 1 as [| t l Hnotin Hnd IH]; [constructor |].
  change (omap f (t :: l))
    with (match f t with Some mk => mk :: omap f l | None => omap f l end).
  destruct (f t) as [mk |] eqn:Ht; [| exact IH].
  cbn [map]. constructor; [| exact IH].
  intros Hin. apply list_elem_of_fmap in Hin as (mk' & Heq & Hin).
  apply list_elem_of_omap in Hin as (t' & Hin' & Ht').
  apply Hid in Ht, Ht'. assert (t' = t) by lia. subst. contradiction.
Qed.

End WithGeometry.
End MarkerFacts.

Section MarkerPublishing.
Import Mapper Markers MarkerFacts.
Context `{Geometry}.

(** C7, as the code has it: [sendMapMessage] visits at most the first
    100000 positions of the result of the bounding-box query, and returns
    when each of them names a surfel of the scene; the markers it then
    publishes are, once each, those of the visited positions whose number
    in the result list is even and whose surfel has a finite position: the
    choice goes by the position in the list, not by the rank among the
    valid candidates, and no surfel with a non-finite position is
    published. *)
Theorem sendMapMessage_even_positions
    (m : SurfelMapper) (min_bb max_bb : float * float * float) :
  let cloud := getCloudScene m in
  let point_indices := getBoundingBoxIndices m min_bb max_bb in
  (Z.of_nat (nmarkers point_indices) <= 100000)%Z /\
  nmarkers point_indices <= length point_indices /\
  ((forall i, i < nmarkers point_indices ->
      exists n point, point_indices !! i = Some n /\ at_ cloud n = Ok point) ->
   exists markers, sendMapMessage m min_bb max_bb = Ok markers) /\
  (forall markers : list Marker,
     sendMapMessage m min_bb max_bb = Ok markers ->
     (forall mk : Marker,
        mk ∈ markers <->
        exists (i : nat) (n : Z) (point : PointCustomSurfel),
          i < nmarkers point_indices /\ i mod 2 = 0 /\
          point_indices !! i = Some n /\ at_ cloud n = Ok point /\
          isFinite point = true /\ mk = marker_of i point) /\
     NoDup (map id markers)).
Proof.
  intros cloud point_indices.
  destruct (nmarkers_bound point_indices) as [Hmax Hlen].
  split; [exact Hmax |]. split; [exact Hlen |]. split.
  - intros Hall. unfold sendMapMessage, build_markers.
    apply marker_loop_returns. intros t Ht. apply Hall.
    unfold point_indices. lia.
  - intros markers Hsend. unfold sendMapMessage, build_markers in Hsend.
    apply marker_loop_Ok in Hsend. cbn [app] in Hsend.
    fold cloud point_indices in Hsend. subst markers. split.
    + intros mk. rewrite list_elem_of_omap. split.
      * intros (i & Hi & Hem). apply elem_of_seq in Hi.
        unfold emitted in Hem.
        destruct (point_indices !! i) as [n |] eqn:Hn; [| discriminate].
        destruct (at_ cloud n) as [point | | |] eqn:Hp; try discriminate.
        destruct (isFinite point) eqn:Hfin; [| discriminate].
        destruct (Nat.eqb_spec (i mod 2) 0) as [Hev | Hodd]; [| discriminate].
        cbn in Hem. injection Hem as <-.
        exists i, n, point. repeat split; auto; lia.
      * intros (i & n & point & Hi & Hev & Hn & Hp & Hfin & ->).
        exists i. split; [apply elem_of_seq; lia |].
        unfold emitted. rewrite Hn, Hp, Hfin, Hev. reflexivity.
    + apply NoDup_omap_ids; [apply emitted_id | apply NoDup_seq].
Qed.

End MarkerPublishing.

Section MarkerPublishingSamples.
Import Mapper Markers.

Lemma sendMapMessage_even_positions_witness :
  let m := Samples.sample_mapper Samples.sample_params
             {| alpha := Finite 500; beta := Finite 500;
                cx := Finite 320; cy := Finite 240 |} in
  let bb := (Finite 0, Finite 0, Finite 0) in
  exists markers,
    sendMapMessage (H := Samples.sample_geometry) m bb bb = Ok markers /\
    NoDup (map id markers).
Proof.
  intros m bb. eexists. split; [reflexivity |].
  apply (sendMapMessage_even_positions (H := Samples.sample_geometry) m bb bb).
  reflexivity.
Defined.

(** C7 as claimed fails: on a result list naming a valid, an invalid and a
    valid surfel, both valid candidates are published, not every second
    of them. *)
Lemma sendMapMessage_publishes_consecutive_valid :
  let m := Samples.sample_mapper Samples.sample_params
             {| alpha := Finite 500; beta := Finite 500;
                cx := Finite 320; cy := Finite 240 |} in
  let bb := (Finite 0, Finite 0, Finite 0) in
  let point_indices :=
    getBoundingBoxIndices (Geometry := Samples.sample_geometry) m bb bb in
  let valid := valid_candidates (getCloudScene m) point_indices in
  map fst valid = [0; 2] /\
  map fst (every_other valid) = [0] /\
  exists markers,
    sendMapMessage (H := Samples.sample_geometry) m bb bb = Ok markers /\
    map id markers = [0; 2]%Z /\
    length markers <> length (every_other valid).
Proof.
  split; [reflexivity |]. split; [reflexivity |].
  eexists. split; [reflexivity |]. split; [reflexivity |].
  vm_compute. discriminate.
Qed.

End MarkerPublishingSamples.

(** ** Reset *)

Section Reset.
Import Mapper Node.

Lemma resetMap_again (m : SurfelMapper) : resetMap (resetMap m) = resetMap m.
Proof. unfold resetMap. cbn. now rewrite length_replicate. Qed.

Lemma getAllIndices_resetMap (m : SurfelMapper) : getAllIndices (resetMap m) = [].
Proof. unfold getAllIndices, resetMap. cbn. now rewrite map_to_list_empty. Qed.

(** C8: resetting twice in a row gives the state that resetting once
    gives, for the map and for the node whose [resetMapCallback] resets
    it; and after a reset [getAllIndices] returns the empty sequence. *)
Theorem resetMap_idempotent :
  (forall m : SurfelMapper,
     resetMap (resetMap m) = resetMap m /\ getAllIndices (resetMap m) = []) /\
  (forall s : State,
     (resetMapCallback (resetMapCallback s).1).1 = (resetMapCallback s).1 /\
     (resetMapCallback s).2 = true /\
     forall m : SurfelMapper,
       mapper s = Some m ->
       mapper (resetMapCallback s).1 = Some (resetMap m) /\
       getAllIndices (resetMap m) = []).
Proof.
  split.
  - intros m. split; [apply resetMap_again | apply getAllIndices_resetMap].
  - intros s. unfold resetMapCallback.
    destruct (mapper s) as [m |] eqn:Hm; cbn.
    + rewrite resetMap_again. split; [reflexivity |]. split; [reflexivity |].
      intros m' [= <-]. split; [reflexivity | apply getAllIndices_resetMap].
    + rewrite Hm. split; [reflexivity |]. split; [reflexivity | discriminate].
Qed.

Lemma resetMap_idempotent_witness :
  let m := Samples.sample_mapper Samples.sample_params
             {| alpha := Finite 500; beta := Finite 500;
                cx := Finite 320; cy := Finite 240 |} in
  let s := {| params := Samples.sample_params; current_path := None;
              cloudMsgQueue := []; mapper := Some m; ingested := [] |} in
  mapper s = Some m /\
  mapper (resetMapCallback s).1 = Some (resetMap m) /\
  getAllIndices (resetMap m) = [].
Proof.
  intros m s. split; [reflexivity |].
  apply resetMap_idempotent. reflexivity.
Defined.

Example reset_sample :
  let m := Samples.sample_mapper Samples.sample_params
             {| alpha := Finite 500; beta := Finite 500;
                cx := Finite 320; cy := Finite 240 |} in
  getAllIndices m = [0; 2]%Z /\
  getAllIndices (resetMap m) = [] /\
  cloudScene (resetMap m) = [invalid_surfel; invalid_surfel; invalid_surfel].
Proof. repeat split; vm_compute; reflexivity. Qed.

End Reset.

(** ** Parameters *)

Section Defaults.
Import Mapper Params.
Local Open Scope string_scope.

Lemma getParam_double_absent (np : gmap string XmlRpcValue) key :
  np !! key = None -> getParam_double np key = None.
Proof. unfold getParam_double. now intros ->. Qed.

Lemma getParam_int_absent (np : gmap string XmlRpcValue) key :
  np !! key = None -> getParam_int np key = None.
Proof. unfold getParam_int. now intros ->. Qed.

Lemma getParam_bool_absent (np : gmap string XmlRpcValue) key :
  np !! key = None -> getParam_bool np key = None.
Proof. unfold getParam_bool. now intros ->. Qed.

(** The defaults of the source: each of the twelve options, when the
    parameter server does not hold it, takes the value of the literal
    assigned in [main].  For ten of them that is the documented value (for
    a [double], the [double] nearest to it); for [dmax] and
    [min_scan_znormal] it is the documented value rounded to single
    precision, 5368709 / 2^30 and 13421773 / 2^26, within one part in 2^24
    of 0.005 and 0.2. *)
Theorem parse_params_defaults (np : gmap string XmlRpcValue) :
  (np !! "dmax" = None ->
     dmax (parse_params np) = float_literal 0.005 /\
     dmax (parse_params np) = Finite (5368709 # 1073741824) /\
     (Qabs ((5368709 # 1073741824) - 0.005) <= 0.005 * (1 # 16777216))%Q) /\
  (np !! "min_kinect_dist" = None ->
     min_kinect_dist (parse_params np) = double_literal 0.8) /\
  (np !! "max_kinect_dist" = None ->
     max_kinect_dist (parse_params np) = double_literal 4.0) /\
  (np !! "octree_resolution" = None ->
     octree_resolution (parse_params np) = double_literal 0.2) /\
  (np !! "preview_resolution" = None ->
     preview_resolution (parse_params np) = double_literal 0.2) /\
  (np !! "preview_color_samples_in_voxel" = None ->
     preview_color_samples_in_voxel (parse_params np) = 3%Z) /\
  (np !! "confidence_threshold" = None ->
     confidence_threshold (parse_params np) = 5%Z) /\
  (np !! "min_scan_znormal" = None ->
     min_scan_znormal (parse_params np) = float_literal 0.2 /\
     min_scan_znormal (parse_params np) = Finite (13421773 # 67108864) /\
     (Qabs ((13421773 # 67108864) - 0.2) <= 0.2 * (1 # 16777216))%Q) /\
  (np !! "use_frustum" = None -> use_frustum (parse_params np) = true) /\
  (np !! "scene_size" = None -> scene_size (parse_params np) = (3 * 10 ^ 7)%Z) /\
  (np !! "logging" = None -> logging (parse_params np) = true) /\
  (np !! "use_update" = None -> use_update (parse_params np) = true).
Proof.
  unfold parse_params; cbn [dmax min_kinect_dist max_kinect_dist octree_resolution
    preview_resolution preview_color_samples_in_voxel confidence_threshold
    min_scan_znormal use_frustum scene_size logging use_update].
  repeat match goal with
         | |- _ /\ _ => split
         | |- _ -> _ =>
             let Habs := fresh "Habs" in
             intros Habs;
             rewrite ?(getParam_double_absent _ _ Habs),
                     ?(getParam_int_absent _ _ Habs),
                     ?(getParam_bool_absent _ _ Habs)
         end;
    try reflexivity; try (vm_compute; reflexivity); vm_compute; discriminate.
Qed.

Lemma parse_params_defaults_witness :
  let np : gmap string XmlRpcValue :=
    {[ "scene_size" := TypeInt 1000; "logging" := TypeString "yes" ]} in
  np !! "dmax" = None /\
  dmax (parse_params np) = Finite (5368709 # 1073741824) /\
  scene_size (parse_params np) = 1000%Z /\
  logging (parse_params np) = true.
Proof.
  intros np. split; [reflexivity |]. split; [| split; reflexivity].
  apply (parse_params_defaults np). reflexivity.
Defined.

(** C6: the code misses the documented default of two options.  With
    no parameter set, [dmax] and [min_scan_znormal] are the [float]
    literals [0.005f] and [0.2f] widened to [double], not the documented
    0.005 and 0.2, neither as the decimals nor as the [double]s nearest to
    them: in the program [dmax == 0.005] is false, while
    [octree_resolution], whose default is written [0.2], is the [double]
    nearest to 0.2. *)
Lemma parse_params_float_defaults :
  dmax (parse_params ∅) = Finite (5368709 # 1073741824) /\
  double_literal 0.005 = Finite (5764607523034235 # 1152921504606846976) /\
  dmax (parse_params ∅) <> double_literal 0.005 /\
  ~ (5368709 # 1073741824 == 0.005)%Q /\
  min_scan_znormal (parse_params ∅) = Finite (13421773 # 67108864) /\
  double_literal 0.2 = Finite (3602879701896397 # 18014398509481984) /\
  min_scan_znormal (parse_params ∅) <> double_literal 0.2 /\
  ~ (13421773 # 67108864 == 0.2)%Q /\
  octree_resolution (parse_params ∅) = double_literal 0.2.
Proof.
  repeat split; try (vm_compute; reflexivity); vm_compute; discriminate.
Qed.

End Defaults.

(** * Further properties of the node *)

(** ** Rounding: order, error, stamps that are not normalized *)

Section RoundingOrder.
Import RosTime RosTimeFacts Stamps.
Local Open Scope Z_scope.

(** Unless the seconds wrap, rounding is rounding of the nanosecond count
    to a multiple of one millisecond, halves going down. *)
Lemma roundTimeStamp_toNSec t :
  normalized t -> no_wrap t ->
  toNSec (roundTimeStamp t) = 1000000 * ((toNSec t + 499999) / 1000000).
Proof.
  intros [Hs Hn] Hno. unfold no_wrap in Hno. unfold is_uint32 in Hs.
  assert (Hr : 0 <= nsec t mod 1000000 < 1000000) by (apply Z.mod_pos_bound; lia).
  assert (Hd : nsec t = 1000000 * (nsec t / 1000000) + nsec t mod 1000000)
    by (apply Z.div_mod; lia).
  assert (HR : 0 <= (toNSec t + 499999) mod 1000000 < 1000000)
    by (apply Z.mod_pos_bound; lia).
  assert (HD : toNSec t + 499999
               = 1000000 * ((toNSec t + 499999) / 1000000)
                 + (toNSec t + 499999) mod 1000000)
    by (apply Z.div_mod; lia).
  unfold toNSec in *.
  destruct (roundTimeStamp_cases t Hn)
    as [[Hle ->] | [(Hgt & Hlt & ->) | (Hgt & Hbig & ->)]]; cbn [sec nsec].
  - lia.
  - lia.
  - rewrite wrap32_small by lia. lia.
Qed.

Lemma roundTimeStamp_le (a b : Time) :
  normalized a -> normalized b -> no_wrap b ->
  time_le a b = true ->
  time_le (roundTimeStamp a) (roundTimeStamp b) = true.
Proof.
  intros Ha Hb Hnob Hab.
  pose proof Ha as [Hsa Hna]. pose proof Hb as [Hsb Hnb].
  apply time_le_toNSec in Hab; [| assumption ..].
  assert (Hnoa : no_wrap a).
  { unfold no_wrap, toNSec, is_uint32 in *. lia. }
  apply time_le_toNSec; [apply (roundTimeStamp_nsec a Hna) |
                         apply (roundTimeStamp_nsec b Hnb) |].
  rewrite (roundTimeStamp_toNSec a Ha Hnoa), (roundTimeStamp_toNSec b Hb Hnob).
  apply Z.mul_le_mono_nonneg_l; [lia |].
  apply Z.div_le_mono; lia.
Qed.

(** X1: rounding keeps the order of stamps: of two normalized stamps, the
    later one not wrapping its seconds, the earlier rounds to a stamp that
    is not later than what the later rounds to. *)
Theorem roundTimeStamp_monotone (a b : Time) :
  normalized a -> normalized b -> no_wrap b ->
  time_le a b = true ->
  time_le (roundTimeStamp a) (roundTimeStamp b) = true.
Proof.
  intros [Hsa Hna] [Hsb Hnb] Hnob Hab.
  apply time_le_toNSec in Hab; [| assumption ..].
  assert (Hnoa : no_wrap a).
  { unfold no_wrap, toNSec, is_uint32 in *. lia. }
  apply time_le_toNSec; [apply (roundTimeStamp_nsec a Hna) |
                         apply (roundTimeStamp_nsec b Hnb) |].
  rewrite (roundTimeStamp_toNSec a (conj Hsa Hna) Hnoa),
          (roundTimeStamp_toNSec b (conj Hsb Hnb) Hnob).
  apply Z.mul_le_mono_nonneg_l; [lia |].
  apply Z.div_le_mono; lia.
Qed.

Lemma roundTimeStamp_monotone_witness :
  time_le (roundTimeStamp (mkTime 10 999499999)) (roundTimeStamp (mkTime 10 999500001))
  = true.
Proof.
  apply roundTimeStamp_monotone.
  - unfold normalized, is_uint32. cbn. lia.
  - unfold normalized, is_uint32. cbn. lia.
  - unfold no_wrap. cbn. lia.
  - reflexivity.
Defined.

(** X2: unless the seconds wrap, rounding moves a stamp by at most half a
    millisecond, down by up to 500000 ns or up by up to 499999 ns; so two
    stamps that round to the same stamp are less than one millisecond
    apart. *)
Theorem roundTimeStamp_error (a b : Time) :
  normalized a -> normalized b -> no_wrap a -> no_wrap b ->
  -500000 <= toNSec (roundTimeStamp a) - toNSec a <= 499999 /\
  (roundTimeStamp a = roundTimeStamp b -> Z.abs (toNSec a - toNSec b) < 1000000).
Proof.
  intros Ha Hb Hnoa Hnob.
  assert (Hbound : forall t, normalized t -> no_wrap t ->
            -500000 <= toNSec (roundTimeStamp t) - toNSec t <= 499999).
  { intros t Ht Hno. rewrite (roundTimeStamp_toNSec t Ht Hno).
    assert (HR : 0 <= (toNSec t + 499999) mod 1000000 < 1000000)
      by (apply Z.mod_pos_bound; lia).
    assert (HD : toNSec t + 499999
                 = 1000000 * ((toNSec t + 499999) / 1000000)
                   + (toNSec t + 499999) mod 1000000)
      by (apply Z.div_mod; lia).
    lia. }
  split; [apply (Hbound a Ha Hnoa) |].
  intros Heq. pose proof (Hbound a Ha Hnoa). pose proof (Hbound b Hb Hnob).
  rewrite Heq in *. lia.
Qed.

Lemma roundTimeStamp_error_witness :
  -500000 <= toNSec (roundTimeStamp (mkTime 10 999499999)) - toNSec (mkTime 10 999499999)
  <= 499999.
Proof.
  apply (roundTimeStamp_error (mkTime 10 999499999) (mkTime 10 999400000));
    unfold normalized, no_wrap, is_uint32; cbn; lia.
Defined.

(** X3: [roundTimeStamp] does not normalize.  On any stamp with fields in
    [uint32_t] range the seconds change only by the carry from the last
    half millisecond of a second; a nanosecond field of 10^9 or more (up to
    4294500000, beyond which the addition of a millisecond wraps) is
    rounded to a whole millisecond that is again 10^9 or more. *)
Theorem roundTimeStamp_no_normalization (t : Time) :
  is_uint32 (sec t) -> is_uint32 (nsec t) ->
  (sec (roundTimeStamp t) <> sec t -> 999500000 < nsec t < 1000000000) /\
  (1000000000 <= nsec t <= 4294500000 ->
     sec (roundTimeStamp t) = sec t /\
     1000000000 <= nsec (roundTimeStamp t) /\
     whole_ms (roundTimeStamp t)).
Proof.
  unfold is_uint32, whole_ms. intros Hs Hn.
  assert (Hr : 0 <= nsec t mod 1000000 < 1000000) by (apply Z.mod_pos_bound; lia).
  assert (Hd : nsec t = 1000000 * (nsec t / 1000000) + nsec t mod 1000000)
    by (apply Z.div_mod; lia).
  set (x := nsec t - nsec t mod 1000000 + 1000000).
  assert (Hw : 0 <= x mod 2 ^ 32 < 2 ^ 32) by (apply Z.mod_pos_bound; lia).
  assert (Hx : x = 2 ^ 32 * (x / 2 ^ 32) + x mod 2 ^ 32) by (apply Z.div_mod; lia).
  unfold roundTimeStamp.
  rewrite (wrap32_small (nsec t mod 1000000)) by lia.
  rewrite (wrap32_small (nsec t - nsec t mod 1000000)) by lia.
  fold x. change (wrap32 x) with (x mod 2 ^ 32).
  destruct (Z.ltb_spec 500000 (nsec t mod 1000000)) as [Hgt | Hle].
  - destruct (Z.eqb_spec (x mod 2 ^ 32) 1000000000) as [He | Hne]; cbn [sec nsec].
    + split; [intros _; subst x; lia | intros Hbig; subst x; lia].
    + split; [congruence |]. intros Hbig.
      assert (Hsmall : x mod 2 ^ 32 = x) by (apply Z.mod_small; subst x; lia).
      rewrite Hsmall. split; [reflexivity |]. split; [subst x; lia |].
      subst x.
      replace (nsec t - nsec t mod 1000000 + 1000000)
        with ((nsec t / 1000000 + 1) * 1000000) by lia.
      apply Z.mod_mul. lia.
  - cbn [sec nsec]. split; [congruence |]. intros Hbig.
    split; [reflexivity |]. split; [lia |].
    replace (nsec t - nsec t mod 1000000) with (nsec t / 1000000 * 1000000) by lia.
    apply Z.mod_mul. lia.
Qed.

Lemma roundTimeStamp_no_normalization_witness :
  sec (roundTimeStamp (mkTime 5 1999999999)) = 5 /\
  1000000000 <= nsec (roundTimeStamp (mkTime 5 1999999999)) /\
  whole_ms (roundTimeStamp (mkTime 5 1999999999)).
Proof.
  apply (roundTimeStamp_no_normalization (mkTime 5 1999999999));
    unfold is_uint32; cbn; lia.
Defined.

End RoundingOrder.

(** ** The lookup: exact matches, ties, rounded inputs *)

Module BracketFacts.
Import RosTime RosTimeFacts Msgs Node BisectFacts LookupFacts NearestFacts.
Local Open Scope Z_scope.



End BracketFacts.

Section LookupDetails.
Import RosTime RosTimeFacts Msgs Node BisectFacts LookupFacts NearestFacts.
Import BracketFacts Stamps.
Local Open Scope Z_scope.

(** X4: a path of a single pose gives that pose exactly to the stamps that
    round to the rounded stamp of the pose, and [false] to all others. *)
Theorem getSensorPosition_single_pose (p : PoseStamped) (ts : Time) :
  (rstamp p = roundTimeStamp ts ->
     getSensorPosition (Some {| poses := [p] |}) ts
     = Ok (Some (sensor_pose_of p))) /\
  (rstamp p <> roundTimeStamp ts ->
     getSensorPosition (Some {| poses := [p] |}) ts = Ok None).
Proof.
  unfold getSensorPosition. cbn [poses length]. rewrite bool_decide_eq_false_2 by discriminate.
  cbn [subscript lookup list_lookup Nat.sub mbind result_bind].
  set (tr := roundTimeStamp ts). split.
  - intros Heq. unfold outside. rewrite Heq. unfold time_gt, time_lt.
    rewrite !Z.ltb_irrefl, andb_false_r. cbn [orb].
    cbn [bisect bisect_guard fst snd Nat.add Nat.ltb Nat.leb mbind result_bind].
    unfold nearest_of. cbn [fst snd subscript lookup list_lookup mbind result_bind].
    now destruct (duration_lt _ _).
  - intros Hneq. unfold outside, time_gt, time_lt.
    destruct (Z.ltb_spec (sec tr) (sec (rstamp p))),
             (Z.ltb_spec (sec (rstamp p)) (sec tr)),
             (Z.eqb_spec (sec (rstamp p)) (sec tr)),
             (Z.ltb_spec (nsec tr) (nsec (rstamp p))),
             (Z.ltb_spec (nsec (rstamp p)) (nsec tr));
      cbn; try reflexivity; try lia.
    exfalso. apply Hneq.
    assert (nsec (rstamp p) = nsec tr) by lia.
    destruct (rstamp p), tr; cbn in *; congruence.
Qed.

Lemma getSensorPosition_single_pose_witness :
  getSensorPosition (Some {| poses := [Samples.entry 10 100400000 2] |})
    (mkTime 10 99600000)
  = Ok (Some (sensor_pose_of (Samples.entry 10 100400000 2))).
Proof.
  apply (getSensorPosition_single_pose (Samples.entry 10 100400000 2)
           (mkTime 10 99600000)).
  reflexivity.
Defined.



End LookupDetails.

Section LookupTies.
Import RosTime RosTimeFacts Msgs Node BisectFacts LookupFacts NearestFacts.
Import BracketFacts Stamps.
Local Open Scope Z_scope.



(** On the tie of the witness the later pose is the one returned. *)
Example getSensorPosition_tie_sample :
  getSensorPosition
    (Some {| poses := [Samples.entry 10 0 1; Samples.entry 10 100000000 2] |})
    (mkTime 10 50000000)
  = Ok (Some (sensor_pose_of (Samples.entry 10 100000000 2))).
Proof. vm_compute. reflexivity. Qed.

End LookupTies.

(** ** The lookup on rounded inputs *)

Module RoundedFacts.
Import RosTime RosTimeFacts Msgs Node BisectFacts Stamps.
Local Open Scope Z_scope.

Lemma roundTimeStamp_twice t :
  0 <= nsec t < 1000000000 -> roundTimeStamp (roundTimeStamp t) = roundTimeStamp t.
Proof.
  intros Hn. destruct (roundTimeStamp_nsec t Hn) as [Hm Hb].
  now apply roundTimeStamp_fixed.
Qed.

(** Rounding the stamp of an entry changes neither its rounded stamp nor
    the pose read off it. *)
Lemma rstamp_round_entry p :
  0 <= nsec (stamp p) < 1000000000 -> rstamp (round_entry p) = rstamp p.
Proof.
  intros Hp. unfold rstamp, round_entry. cbn [stamp].
  now apply roundTimeStamp_twice.
Qed.

Lemma subscript_round_entry ps (k : nat) :
  subscript (round_entry <$> ps) k
  = match subscript ps k with
    | Ok p => Ok (round_entry p)
    | OutOfBounds => OutOfBounds
    | OutOfRange => OutOfRange
    | OutOfFuel => OutOfFuel
    end.
Proof.
  unfold subscript. rewrite list_lookup_fmap. now destruct (ps !! k).
Qed.

Lemma subscript_subsecond ps (k : nat) p :
  subsecond_stamps ps -> subscript ps k = Ok p -> 0 <= nsec (stamp p) < 1000000000.
Proof.
  intros Hsub Hk. apply subscript_Ok in Hk.
  unfold subsecond_stamps in Hsub. rewrite Forall_lookup in Hsub. eauto.
Qed.

Lemma bisect_step_round_entry ps tr ij :
  subsecond_stamps ps ->
  bisect_step (round_entry <$> ps) tr ij = bisect_step ps tr ij.
Proof.
  intros Hsub. unfold bisect_step. rewrite subscript_round_entry.
  destruct (subscript ps ((ij.1 + ij.2) / 2)) as [p | | |] eqn:E; try reflexivity.
  cbn [mbind result_bind].
  now rewrite (rstamp_round_entry p (subscript_subsecond ps _ p Hsub E)).
Qed.

Lemma bisect_round_entry fuel ps tr ij :
  subsecond_stamps ps ->
  bisect fuel (round_entry <$> ps) tr ij = bisect fuel ps tr ij.
Proof.
  intros Hsub. revert ij. induction fuel as [| fuel IH]; intros ij; [reflexivity |].
  cbn [bisect]. destruct (bisect_guard ij); [| reflexivity].
  rewrite (bisect_step_round_entry ps tr ij Hsub).
  destruct (bisect_step ps tr ij); cbn [mbind result_bind]; auto.
Qed.

Lemma nearest_of_round_entry ps ts ij :
  subsecond_stamps ps ->
  nearest_of (round_entry <$> ps) ts ij = nearest_of ps ts ij.
Proof.
  intros Hsub. unfold nearest_of. rewrite !subscript_round_entry.
  destruct (subscript ps ij.1) as [pi | | |] eqn:Ei; try reflexivity.
  cbn [mbind result_bind].
  destruct (subscript ps ij.2) as [pj | | |] eqn:Ej; try reflexivity.
  cbn [mbind result_bind].
  now rewrite (rstamp_round_entry pi (subscript_subsecond ps _ pi Hsub Ei)),
              (rstamp_round_entry pj (subscript_subsecond ps _ pj Hsub Ej)).
Qed.

End RoundedFacts.

Section RoundedInputs.
Import RosTime RosTimeFacts Msgs Node BisectFacts Stamps RoundedFacts.
Local Open Scope Z_scope.

(** X7: the lookup sees stamps only through their rounding: with
    nanosecond fields below one second, rounding the keyframe stamp and
    the stamps of the path beforehand changes nothing in what
    [getSensorPosition] returns. *)
Theorem getSensorPosition_rounded_inputs (path : Path) (ts : Time) :
  0 <= nsec ts < 1000000000 ->
  subsecond_stamps (poses path) ->
  getSensorPosition (Some {| poses := round_entry <$> poses path |})
    (roundTimeStamp ts)
  = getSensorPosition (Some path) ts.
Proof.
  intros Hts Hsub. unfold getSensorPosition. cbn [poses]. cbv zeta.
  rewrite (roundTimeStamp_twice ts Hts). rewrite length_fmap.
  set (ps := poses path) in *. set (tr := roundTimeStamp ts).
  destruct ps as [| p0 rest] eqn:Eps; [reflexivity |]. rewrite <- Eps in *.
  rewrite (bool_decide_eq_false_2 (ps = [])) by (rewrite Eps; discriminate).
  rewrite (bool_decide_eq_false_2 (round_entry <$> ps = []))
    by (rewrite Eps; discriminate).
  rewrite !subscript_round_entry.
  destruct (subscript ps 0) as [front | | |] eqn:Ef; try reflexivity.
  cbn [mbind result_bind].
  destruct (subscript ps (length ps - 1)) as [back | | |] eqn:Eb; try reflexivity.
  cbn [mbind result_bind].
  unfold outside.
  rewrite (rstamp_round_entry front (subscript_subsecond ps _ front Hsub Ef)),
          (rstamp_round_entry back (subscript_subsecond ps _ back Hsub Eb)).
  destruct (time_gt (rstamp front) tr || time_lt (rstamp back) tr); [reflexivity |].
  rewrite (bisect_round_entry _ ps tr _ Hsub).
  destruct (bisect (length ps) ps tr (0%nat, (length ps - 1)%nat)) as [ij | | |];
    try reflexivity.
  cbn [mbind result_bind].
  assert (Hn : nearest_of (round_entry <$> ps) (roundTimeStamp ts) ij
               = nearest_of ps ts ij).
  { rewrite (nearest_of_round_entry ps _ ij Hsub). unfold nearest_of.
    now rewrite (roundTimeStamp_twice ts Hts). }
  fold tr in Hn. rewrite Hn.
  destruct (nearest_of ps ts ij) as [k | | |]; try reflexivity.
  cbn [mbind result_bind]. rewrite subscript_round_entry.
  destruct (subscript ps k) as [p | | |]; reflexivity.
Qed.

Lemma getSensorPosition_rounded_inputs_witness :
  getSensorPosition
    (Some {| poses := round_entry <$> poses Samples.sample_path |})
    (roundTimeStamp (mkTime 10 150000400))
  = getSensorPosition (Some Samples.sample_path) (mkTime 10 150000400).
Proof.
  apply getSensorPosition_rounded_inputs.
  - cbn. lia.
  - repeat constructor; cbn; lia.
Defined.

End RoundedInputs.

(** ** The queue: retries, waiting keyframes *)

Module RetryFacts.
Import RosTime Msgs Mapper Node Run QueueFacts RunFacts Blocking.

Section WithGeometry.
Context `{Geometry}.

(** With a keyframe at the front whose lookup fails, a call changes
    nothing. *)
Lemma processCloudMsgQueue_blocked (s : State) kf rest :
  cloudMsgQueue s = kf :: rest ->
  getSensorPosition (current_path s) (cloud_stamp kf) = Ok None ->
  processCloudMsgQueue s = Ok s.
Proof.
  intros Hq Hfail. unfold processCloudMsgQueue.
  destruct (mapper s) as [m |] eqn:Hm; [| reflexivity].
  rewrite Hq. cbn [drain]. rewrite Hfail. cbn.
  destruct s; cbn in *. now subst.
Qed.

(** With an empty queue a call changes nothing. *)
Lemma processCloudMsgQueue_empty (s : State) :
  cloudMsgQueue s = [] -> processCloudMsgQueue s = Ok s.
Proof.
  intros Hq. unfold processCloudMsgQueue.
  destruct (mapper s) as [m |] eqn:Hm; [| reflexivity].
  rewrite Hq. cbn. destruct s; cbn in *. now subst.
Qed.

(** An event that brings no covering path keeps a blocked front keyframe
    blocked: nothing is ingested, and a keyframe it brings queues up. *)
Lemma handle_blocked (e : Event) (s : State) kf rest :
  cloudMsgQueue s = kf :: rest ->
  getSensorPosition (current_path s) (cloud_stamp kf) = Ok None ->
  leaves_blocked kf e ->
  exists s' : State,
    handle e s = Ok s' /\
    ingested s' = ingested s /\
    cloudMsgQueue s' = cloudMsgQueue s ++ keyframes [e] /\
    getSensorPosition (current_path s') (cloud_stamp kf) = Ok None.
Proof.
  intros Hq Hfail Hev.
  destruct e as [msg | msg | msg | |]; cbn [handle keyframes omap leaves_blocked] in *.
  - exists (pathCallback msg s). cbn. now rewrite app_nil_r.
  - unfold keyframeCallback.
    erewrite processCloudMsgQueue_blocked; [| cbn; rewrite Hq; reflexivity | exact Hfail].
    eexists. split; [reflexivity |]. cbn. auto.
  - unfold cameraInfoCallback. destruct (mapper s) as [m |] eqn:Hm.
    + exists s. now rewrite app_nil_r.
    + erewrite processCloudMsgQueue_blocked; [| cbn; exact Hq | exact Hfail].
      eexists. split; [reflexivity |]. cbn. now rewrite app_nil_r.
  - unfold resetMapCallback. destruct (mapper s) as [m |] eqn:Hm; cbn.
    + eexists. split; [reflexivity |]. cbn. now rewrite app_nil_r.
    + exists s. now rewrite app_nil_r.
  - rewrite (processCloudMsgQueue_blocked s kf rest Hq Hfail).
    exists s. now rewrite app_nil_r.
Qed.

End WithGeometry.
End RetryFacts.

Section Retries.
Import RosTime Msgs Mapper Node Run QueueFacts RunFacts Blocking RetryFacts.
Context `{Geometry}.

(** X8: a second call of [processCloudMsgQueue] right after a first one
    changes nothing: what the first call left waiting still waits. *)
Theorem processCloudMsgQueue_idempotent (s s' : State) :
  processCloudMsgQueue s = Ok s' -> processCloudMsgQueue s' = Ok s'.
Proof.
  intros Hp.
  destruct (processCloudMsgQueue_moves s)
    as (s1 & posed & Hp1 & _ & _ & Hpath & _ & Hnone & _ & _ & Hstop).
  rewrite Hp in Hp1. injection Hp1 as <-.
  destruct (mapper s) as [m |] eqn:Hm.
  - specialize (Hstop ltac:(eauto)). rewrite <- Hpath in Hstop.
    destruct (cloudMsgQueue s') as [| msg rest] eqn:Hq.
    + now apply processCloudMsgQueue_empty.
    + now apply (processCloudMsgQueue_blocked s' msg rest).
  - rewrite (Hnone eq_refl). rewrite (Hnone eq_refl) in Hp. exact Hp.
Qed.


(** X10: a keyframe at the front of the queue whose lookup fails stays
    there, and nothing at all is ingested, through any sequence of events
    that brings no path in which its stamp is found; the keyframes that
    arrive meanwhile queue up behind it. *)
Theorem blocked_keyframe_blocks_queue
    (s : State) (kf : PointCloud2) (rest : list PointCloud2) (evs : list Event) :
  cloudMsgQueue s = kf :: rest ->
  getSensorPosition (current_path s) (cloud_stamp kf) = Ok None ->
  Forall (leaves_blocked kf) evs ->
  exists s' : State,
    run evs s = Ok s' /\
    ingested s' = ingested s /\
    cloudMsgQueue s' = kf :: rest ++ keyframes evs.
Proof.
  revert s rest. induction evs as [| e evs IH]; intros s rest Hq Hfail Hall.
  - exists s. cbn. now rewrite app_nil_r.
  - inversion Hall as [| ? ? He Hrest]; subst.
    destruct (handle_blocked e s kf rest Hq Hfail He) as (s1 & Hh & Hi1 & Hq1 & Hf1).
    rewrite Hq in Hq1. cbn [app] in Hq1.
    destruct (IH s1 (rest ++ keyframes [e]) Hq1 Hf1 Hrest) as (s2 & Hr & Hi2 & Hq2).
    exists s2. cbn [run]. rewrite Hh. cbn [mbind result_bind].
    split; [exact Hr |]. split; [congruence |].
    rewrite Hq2, (keyframes_cons e evs), <- app_assoc. reflexivity.
Qed.


End Retries.

Section RetriesSamples.
Import RosTime Msgs Mapper Node Run Blocking.

(** A node with a mapper, the sample path, and two keyframes waiting: the
    first is covered by the path, the second is not. *)
Lemma processCloudMsgQueue_idempotent_witness :
  let s := {| params := Samples.sample_params;
              current_path := Some Samples.sample_path;
              cloudMsgQueue := [Samples.keyframe 10 150000000; Samples.keyframe 12 0];
              mapper := Some (new_SurfelMapper Samples.sample_params
                                (camera_params_of Samples.sample_camera_info));
              ingested := [] |} in
  exists s' : State,
    processCloudMsgQueue (H := Samples.sample_geometry) s = Ok s' /\
    cloudMsgQueue s' = [Samples.keyframe 12 0] /\
    processCloudMsgQueue (H := Samples.sample_geometry) s' = Ok s'.
Proof.
  intros s. eexists. split; [reflexivity |]. split; [reflexivity |].
  apply (processCloudMsgQueue_idempotent (H := Samples.sample_geometry) s).
  reflexivity.
Defined.


Lemma blocked_keyframe_blocks_queue_witness :
  let s := {| params := Samples.sample_params;
              current_path := None;
              cloudMsgQueue := [Samples.keyframe 9 0];
              mapper := Some (new_SurfelMapper Samples.sample_params
                                (camera_params_of Samples.sample_camera_info));
              ingested := [] |} in
  let evs := [PathMsg Samples.sample_path;
              KeyframeMsg (Samples.keyframe 10 150000000);
              MainLoopPass; ResetMapRequest;
              CameraInfoMsg Samples.sample_camera_info] in
  exists s' : State,
    run (H := Samples.sample_geometry) evs s = Ok s' /\
    ingested s' = ingested s /\
    cloudMsgQueue s'
    = Samples.keyframe 9 0 :: [] ++ keyframes evs.
Proof.
  intros s evs.
  apply (blocked_keyframe_blocks_queue (H := Samples.sample_geometry)
           s (Samples.keyframe 9 0) [] evs).
  - reflexivity.
  - reflexivity.
  - repeat constructor.
Defined.


End RetriesSamples.

(** ** Marker publishing: how many markers, and when it throws *)

Module PublishFacts.
Import Mapper Markers MarkerFacts.

Lemma at_outcome (cloud : list PointCustomSurfel) (n : Z) :
  (at_ cloud n = OutOfRange /\ (n < 0 \/ Z.of_nat (length cloud) <= n)%Z) \/
  (exists p, at_ cloud n = Ok p /\ (0 <= n < Z.of_nat (length cloud))%Z).
Proof.
  unfold at_. destruct (Z.ltb_spec n 0) as [Hneg | Hpos]; [left; split; [reflexivity | lia] |].
  destruct (cloud !! Z.to_nat n) as [p |] eqn:E.
  - right. exists p. split; [reflexivity |]. apply lookup_lt_Some in E. lia.
  - left. split; [reflexivity |]. apply lookup_ge_None in E. lia.
Qed.

Section WithGeometry.
Context `{Geometry}.

Lemma emitted_odd cloud point_indices i :
  i mod 2 <> 0 -> emitted cloud point_indices i = None.
Proof.
  intros Hodd. unfold emitted. destruct (point_indices !! i); [| reflexivity].
  destruct (at_ cloud _); try reflexivity.
  destruct (Nat.eqb_spec (i mod 2) 0); [contradiction |].
  now rewrite andb_false_r.
Qed.

(** Among [count] consecutive positions at most every other one emits. *)
Lemma length_emitted cloud point_indices count i :
  2 * length (omap (emitted cloud point_indices) (seq i count)) + i mod 2
  <= count + 1.
Proof.
  revert i. induction count as [| count IH]; intros i.
  - cbn. pose proof (Nat.mod_upper_bound i 2). lia.
  - change (seq i (S count)) with (i :: seq (S i) count).
    change (omap (emitted cloud point_indices) (i :: seq (S i) count))
      with (match emitted cloud point_indices i with
            | Some mk => mk :: omap (emitted cloud point_indices) (seq (S i) count)
            | None => omap (emitted cloud point_indices) (seq (S i) count)
            end).
    specialize (IH (S i)).
    pose proof (Nat.div_mod_eq i 2). pose proof (Nat.div_mod_eq (S i) 2).
    pose proof (Nat.mod_upper_bound i 2 ltac:(lia)).
    pose proof (Nat.mod_upper_bound (S i) 2 ltac:(lia)).
    destruct (Nat.eq_dec (i mod 2) 0) as [Hev | Hodd].
    + destruct (emitted cloud point_indices i); cbn [length]; lia.
    + rewrite (emitted_odd cloud point_indices i Hodd). lia.
Qed.

(** The loop either throws because a position it visits names no surfel
    of the scene, or returns having found a surfel at each of them. *)
Lemma marker_loop_outcome cloud point_indices count i acc :
  i + count <= length point_indices ->
  (marker_loop cloud point_indices count i acc = OutOfRange /\
   exists t n, i <= t < i + count /\ point_indices !! t = Some n /\
               at_ cloud n = OutOfRange) \/
  (exists out, marker_loop cloud point_indices count i acc = Ok out /\
   forall t n, i <= t < i + count -> point_indices !! t = Some n ->
               exists p, at_ cloud n = Ok p).
Proof.
  revert i acc. induction count as [| count IH]; intros i acc Hlen.
  - right. eexists. split; [reflexivity |]. intros t n Ht. lia.
  - cbn [marker_loop]. unfold subscript.
    destruct (lookup_lt_is_Some_2 point_indices i ltac:(lia)) as [n Hn].
    rewrite Hn. cbn [mbind result_bind].
    destruct (at_outcome cloud n) as [[Hbad _] | (p & Hp & _)].
    + left. rewrite Hbad. split; [reflexivity |].
      exists i, n. split; [lia | auto].
    + rewrite Hp. cbn [mbind result_bind].
      destruct (IH (S i) (if isFinite p && (i mod 2 =? 0)
                          then acc ++ [marker_of i p] else acc) ltac:(lia))
        as [[Hthrow (t & n' & Ht & Hn' & Hbad)] | (out & Hout & Hall)].
      * left. split; [exact Hthrow |]. exists t, n'. split; [lia | auto].
      * right. exists out. split; [exact Hout |].
        intros t n' Ht Hn'. destruct (Nat.eq_dec t i) as [-> | Hne].
        -- assert (n' = n) by congruence. subst. eauto.
        -- apply (Hall t n'); [lia | assumption].
Qed.

End WithGeometry.
End PublishFacts.

Section Publishing.
Import Msgs Mapper Node Markers MarkerFacts PublishFacts Services.
Context `{Geometry}.

(** X12: a publish-map request always answers [true]; without a mapper it
    publishes nothing; what it publishes otherwise has at most 50000
    markers, each with an even identifier below 100000. *)
Theorem publishMapCallback_at_most_50000 (request : PublishMapRequest) (s : State) :
  (mapper s = None -> publishMapCallback request s = Ok (None, true)) /\
  (forall (marray : option (list Marker)) (b : bool),
     publishMapCallback request s = Ok (marray, b) -> b = true) /\
  (forall (markers : list Marker) (b : bool),
     publishMapCallback request s = Ok (Some markers, b) ->
     (Z.of_nat (length markers) <= 50000)%Z /\
     Forall (fun mk => (0 <= id mk < 100000)%Z /\ (id mk mod 2 = 0)%Z) markers).
Proof.
  unfold publishMapCallback. cbv zeta. split; [| split].
  - now intros ->.
  - intros marray b. destruct (mapper s) as [m |]; [| now intros [= _ <-]].
    destruct (sendMapMessage m _ _); cbn; try discriminate. now intros [= _ <-].
  - intros markers b. destruct (mapper s) as [m |]; [| discriminate].
    destruct (sendMapMessage m _ _) as [out | | |] eqn:Hsend; cbn; try discriminate.
    intros [= -> _]. unfold sendMapMessage, build_markers in Hsend.
    apply marker_loop_Ok in Hsend. cbn [app] in Hsend. subst markers.
    set (cloud := getCloudScene m) in *.
    match goal with |- context [nmarkers ?l] => set (idxs := l) in * end.
    destruct (nmarkers_bound idxs) as [Hmax _]. unfold MAX_MARKERS in Hmax.
    split.
    + pose proof (length_emitted cloud idxs (nmarkers idxs) 0) as Hl.
      change (0 mod 2) with 0 in Hl. lia.
    + apply Forall_forall. intros mk Hmk.
      apply list_elem_of_omap in Hmk as (t & Ht & Hem).
      apply elem_of_seq in Ht.
      rewrite (emitted_id cloud idxs t mk Hem).
      split; [lia |].
      destruct (Nat.eq_dec (t mod 2) 0) as [Hev | Hodd].
      * change 2%Z with (Z.of_nat 2). rewrite <- Nat2Z.inj_mod, Hev. reflexivity.
      * rewrite (emitted_odd cloud idxs t Hodd) in Hem. discriminate.
Qed.

(** X13: [sendMapMessage] throws [std::out_of_range], publishing nothing,
    exactly when one of the positions it visits names an index that is
    negative or not below the size of the scene; otherwise it returns. *)
Theorem sendMapMessage_throws_iff
    (m : SurfelMapper) (min_bb max_bb : float * float * float) :
  let cloud := getCloudScene m in
  let point_indices := getBoundingBoxIndices m min_bb max_bb in
  (sendMapMessage m min_bb max_bb = OutOfRange <->
   exists (i : nat) (n : Z),
     i < nmarkers point_indices /\ point_indices !! i = Some n /\
     (n < 0 \/ Z.of_nat (length cloud) <= n)%Z) /\
  (sendMapMessage m min_bb max_bb = OutOfRange \/
   exists markers, sendMapMessage m min_bb max_bb = Ok markers).
Proof.
  intros cloud point_indices.
  destruct (nmarkers_bound point_indices) as [_ Hlen].
  unfold sendMapMessage, build_markers. fold cloud point_indices.
  destruct (marker_loop_outcome cloud point_indices (nmarkers point_indices) 0 []
              ltac:(lia))
    as [[Hthrow (t & n & Ht & Hn & Hbad)] | (out & Hout & Hall)].
  - split; [| now left]. split; [| intros _; exact Hthrow].
    intros _. exists t, n. split; [lia |]. split; [exact Hn |].
    destruct (at_outcome cloud n) as [[_ Hr] | (p & Hp & _)]; [exact Hr | congruence].
  - split; [| right; eauto]. rewrite Hout. split; [discriminate |].
    intros (i & n & Hi & Hn & Hr). exfalso.
    destruct (Hall i n ltac:(lia) Hn) as [p Hp].
    destruct (at_outcome cloud n) as [[Hbad _] | (p' & _ & Hin)]; [congruence | lia].
Qed.

End Publishing.

Section PublishingSamples.
Import Msgs Mapper Node Markers Services.

Lemma publishMapCallback_at_most_50000_witness :
  let m := Samples.sample_mapper Samples.sample_params
             {| alpha := Finite 500; beta := Finite 500;
                cx := Finite 320; cy := Finite 240 |} in
  let s := {| params := Samples.sample_params; current_path := None;
              cloudMsgQueue := []; mapper := Some m; ingested := [] |} in
  let request := {| x1 := Finite 0; y1 := Finite 0; z1 := Finite 0;
                    x2 := Finite 3; y2 := Finite 3; z2 := Finite 3 |} in
  exists markers,
    publishMapCallback (H := Samples.sample_geometry) request s
    = Ok (Some markers, true) /\
    (Z.of_nat (length markers) <= 50000)%Z.
Proof.
  intros m s request. eexists. split; [reflexivity |].
  eapply (publishMapCallback_at_most_50000 (H := Samples.sample_geometry) request s).
  reflexivity.
Defined.

(** The query of the sample names slot 2 of a scene that has two slots. *)
Lemma sendMapMessage_throws_iff_witness :
  let m := {| mp_params := Samples.sample_params;
              mp_camera := camera_params_of Samples.sample_camera_info;
              cloudScene := [Samples.finite_surfel 1; invalid_surfel];
              cursor := 1; octree := ∅ |} in
  let bb := (Finite 0, Finite 0, Finite 0) in
  sendMapMessage (H := Samples.sample_geometry) m bb bb = OutOfRange.
Proof.
  intros m bb.
  apply (sendMapMessage_throws_iff (H := Samples.sample_geometry) m bb bb).
  exists 2, 2%Z. split; [vm_compute; lia |]. split; [reflexivity |].
  right. cbn. lia.
Defined.

End PublishingSamples.

(** ** Paths over a run *)

Module HistoryFacts.
Import Msgs Mapper Node Run RunFacts History.

Section WithGeometry.
Context `{Geometry}.

Lemma handle_path (e : Event) (s s' : State) :
  handle e s = Ok s' ->
  current_path s'
  = match e with PathMsg msg => Some msg | _ => current_path s end.
Proof.
  destruct e as [msg | msg | msg | |]; cbn [handle].
  - now intros [= <-].
  - unfold keyframeCallback. intros Hp.
    match type of Hp with processCloudMsgQueue ?s0 = _ =>
      destruct (processCloudMsgQueue_moves s0) as (s1 & ? & Hp1 & _ & _ & Hpath & _) end.
    rewrite Hp in Hp1. injection Hp1 as <-. exact Hpath.
  - unfold cameraInfoCallback. destruct (mapper s); [now intros [= <-] |].
    intros Hp.
    match type of Hp with processCloudMsgQueue ?s0 = _ =>
      destruct (processCloudMsgQueue_moves s0) as (s1 & ? & Hp1 & _ & _ & Hpath & _) end.
    rewrite Hp in Hp1. injection Hp1 as <-. exact Hpath.
  - unfold resetMapCallback. destruct (mapper s); now intros [= <-].
  - intros Hp.
    destruct (processCloudMsgQueue_moves s) as (s1 & ? & Hp1 & _ & _ & Hpath & _).
    rewrite Hp in Hp1. injection Hp1 as <-. exact Hpath.
Qed.

Lemma run_path (evs : list Event) (s s' : State) :
  run evs s = Ok s' ->
  current_path s'
  = match last (paths evs) with Some q => Some q | None => current_path s end.
Proof.
  revert s. induction evs as [| e evs IH]; intros s Hr.
  - cbn in Hr. now injection Hr as <-.
  - cbn [run] in Hr. destruct (handle e s) as [s1 | | |] eqn:Hh; try discriminate.
    cbn [mbind result_bind] in Hr.
    rewrite (IH s1 Hr), (handle_path e s s1 Hh).
    destruct e as [msg | msg | msg | |]; try reflexivity.
    change (paths (PathMsg msg :: evs)) with (msg :: paths evs).
    rewrite last_cons. now destruct (last (paths evs)).
Qed.

End WithGeometry.
End HistoryFacts.

Section PathHistory.
Import Msgs Mapper Node Run RunFacts History HistoryFacts.
Context `{Geometry}.

(** X15: after any sequence of events the node still has the parameters
    it started with, and the path it looks poses up in is the last path
    message received (none before the first one): earlier paths are
    dropped. *)
Theorem run_keeps_params_and_latest_path (p : NodeParams) (evs : list Event) :
  exists s : State,
    run evs (initial p) = Ok s /\
    params s = p /\
    current_path s = last (paths evs).
Proof.
  destruct (run_moves evs (initial p)) as (s & Hr & _ & _ & Hpar & _).
  exists s. split; [exact Hr |]. split; [exact Hpar |].
  rewrite (run_path evs (initial p) s Hr). cbn [current_path initial].
  now destruct (last (paths evs)).
Qed.

End PathHistory.

(** ** Paths sorted as received *)

Section SortedPaths.
Import RosTime RosTimeFacts Msgs Node Stamps.

(** X16: a path whose stamps, as received, are normalized, do not wrap
    their seconds on rounding and are in nondecreasing order is in
    nondecreasing order of rounded stamp too, and has all nanosecond
    fields below one second: it is a path on which the lookup finds a
    nearest pose. *)
Theorem chronological_nondecreasing (ps : list PoseStamped) :
  Forall (fun p => normalized (stamp p) /\ no_wrap (stamp p)) ps ->
  chronological ps = true ->
  nondecreasing ps = true /\ subsecond_stamps ps.
Proof.
  intros Hall Hch. split.
  - induction ps as [| p rest IH]; [reflexivity |].
    destruct rest as [| q rest']; [reflexivity |].
    cbn [chronological] in Hch. apply andb_true_iff in Hch as [Hpq Hch].
    inversion Hall as [| ? ? [Hp _] Hall']; subst.
    inversion Hall' as [| ? ? [Hq Hnoq] _]; subst.
    cbn [nondecreasing]. apply andb_true_iff. split.
    + unfold rstamp. now apply roundTimeStamp_le.
    + now apply IH.
  - unfold subsecond_stamps. eapply Forall_impl; [exact Hall |].
    intros p [[_ Hn] _]. exact Hn.
Qed.

Lemma chronological_nondecreasing_witness :
  nondecreasing (poses Samples.sample_path) = true /\
  subsecond_stamps (poses Samples.sample_path).
Proof.
  apply chronological_nondecreasing.
  - repeat constructor; unfold is_uint32, no_wrap; cbn; lia.
  - reflexivity.
Defined.

End SortedPaths.
